(** * dallinger/db.py: transactional outbox, session scope and serialized retry

    A shallow embedding of the session-handling code of [dallinger/db.py]:
    the outbox kept in [session.info], the three SQLAlchemy event listeners
    ([after_begin], [after_soft_rollback], [after_commit]), [queue_message],
    the context manager [sessions_scope] and the decorator [serialized].

    Python dictionaries are finite maps, Python lists are lists, exceptions
    are values of an inductive type and the control flow of [try] / [except]
    / [finally] / [while] is written out in a state-and-exception monad.

    What lies outside db.py is the environment:
    - the SQLAlchemy session fires the listeners registered with
      [event.listens_for]: [after_begin] when the transaction first takes a
      connection, [after_commit] once the commit succeeded,
      [after_soft_rollback] once a rollback was done; [remove] discards the
      session of the registry;
    - each session method may raise, as decided by a [Database];
    - [redis.publish] is the record of the calls made to it;
    - the wrapped function is given by what it does on each invocation. *)

From Stdlib Require Import ZArith Lia.
From stdpp Require Import base option list gmap strings fin_maps.
From Equations Require Import Equations.
From Equations.Prop Require Import Logic.

Open Scope string_scope.
Open Scope list_scope.

(** ** The outbox and the event listeners *)

Module Outbox.

(** One pending message: the tuple [(channel, message)]. *)
Abbreviation pair_t := (string * string)%type.

(** [session.info]: a dictionary; the only key db.py reads or writes is
    ['outbox'], bound to a list of pending pairs. *)
Abbreviation Info := (gmap string (list pair_t)).

(** The log of calls [redis.publish(channel, message)], oldest first. The
    publish primitive is an external collaborator; it is modelled by the
    record of the calls made to it. *)
Definition publish (channel message : string) (redis : list pair_t)
    : list pair_t :=
  redis ++ [(channel, message)].

(** [after_begin]: [session.info['outbox'] = []]. *)
Definition after_begin (info : Info) : Info := <["outbox" := []]> info.

(** [after_soft_rollback]: [session.info['outbox'] = []]. *)
Definition after_soft_rollback (info : Info) : Info := <["outbox" := []]> info.

(** [queue_message(channel, message)]: create the list when the key is
    missing, then append the pair to the list stored under the key. *)
Definition queue_message (channel message : string) (info : Info) : Info :=
  let info1 :=
    if bool_decide (is_Some (info !! "outbox")) then info
    else <["outbox" := []]> info in
  match info1 !! "outbox" with
  | Some outbox => <["outbox" := outbox ++ [(channel, message)]]> info1
  | None => info1 (* KeyError; ruled out by the test above *)
  end.

(** [after_commit]: one [redis.publish] per pair of
    [session.info.get('outbox', ())], in list order. [session.info] is not
    written. *)
Definition after_commit (info : Info) (redis : list pair_t) : list pair_t :=
  foldl (λ r cm, publish cm.1 cm.2 r) redis (default [] (info !! "outbox")).

(** The pending pairs of a session, [session.info.get('outbox', ())]. *)
Definition outbox (info : Info) : list pair_t := default [] (info !! "outbox").

(** *** Histories of listener and enqueue calls on one session *)

Inductive hook :=
| Begin                          (* after_begin fires *)
| SoftRollback                   (* after_soft_rollback fires *)
| Queue (channel message : string) (* queue_message(channel, message) *)
| Commit.                        (* after_commit fires *)

Definition step (st : Info * list pair_t) (h : hook) : Info * list pair_t :=
  match h with
  | Begin => (after_begin st.1, st.2)
  | SoftRollback => (after_soft_rollback st.1, st.2)
  | Queue c m => (queue_message c m st.1, st.2)
  | Commit => (st.1, after_commit st.1 st.2)
  end.

Definition run (hs : list hook) (st : Info * list pair_t)
    : Info * list pair_t :=
  foldl step st hs.

Definition is_reset (h : hook) : bool :=
  match h with Begin | SoftRollback => true | _ => false end.

(** The pairs enqueued by a history, in order. *)
Fixpoint enqueued (hs : list hook) : list pair_t :=
  match hs with
  | [] => []
  | Queue c m :: hs' => (c, m) :: enqueued hs'
  | _ :: hs' => enqueued hs'
  end.

End Outbox.

(** ** Exceptions and the state-and-exception monad *)

Module Py.
Import Outbox.

(** The driver-level error carried in the [orig] attribute of a SQLAlchemy
    [OperationalError]. [TransactionRollbackError] stands for the psycopg2
    class and its subclasses, which is what [isinstance] tests. *)
Inductive driver_error :=
| TransactionRollbackError
| DriverError (name : string).

(** Raised objects. [PyException] is an instance of [Exception] that is not
    an [OperationalError]; [PyBaseException] is an instance of
    [BaseException] outside [Exception] (KeyboardInterrupt, SystemExit),
    which [except Exception] does not catch. *)
Inductive exn :=
| OperationalError (orig : driver_error)
| PyException (message : string)
| PyBaseException (name : string).

Definition isinstance_Exception (e : exn) : bool :=
  match e with PyBaseException _ => false | _ => true end.

Definition isinstance_TransactionRollbackError (d : driver_error) : bool :=
  match d with TransactionRollbackError => true | DriverError _ => false end.

(** Calls observed on the session, on the wrapped function and on the
    logger, oldest first. *)
Inductive event :=
| CallConnection            (* session.connection(execution_options=...) *)
| CallFunc                  (* the call of func *)
| CallCommit                (* local_session.commit() *)
| CallRollback              (* local_session.rollback() *)
| CallRemove                (* local_session.remove() *)
| LogException (e : exn).   (* logger.exception(...) while handling e *)

(** The state the code acts on: the scoped session ([info], and whether the
    current transaction has begun on a connection), the publish log of the
    redis connection and the trace of calls. *)
Record World := mkWorld {
  info : Info;
  begun : bool;
  redis : list pair_t;
  trace : list event
}.

Definition same_call (a b : event) : bool :=
  match a, b with
  | CallConnection, CallConnection
  | CallFunc, CallFunc
  | CallCommit, CallCommit
  | CallRollback, CallRollback
  | CallRemove, CallRemove => true
  | _, _ => false
  end.

(** How many times a call occurs in a trace. *)
Definition count (ev : event) (t : list event) : nat :=
  length (List.filter (same_call ev) t).

Definition record (ev : event) (w : World) : World :=
  mkWorld (info w) (begun w) (redis w) (trace w ++ [ev]).

Definition set_session (i : Info) (b : bool) (w : World) : World :=
  mkWorld i b (redis w) (trace w).

Definition set_redis (r : list pair_t) (w : World) : World :=
  mkWorld (info w) (begun w) r (trace w).

(** What the database does: for each session method, the exception it
    raises when called in a given state, if any. *)
Record Database := mkDatabase {
  connection_fault : World → option exn;
  commit_fault : World → option exn;
  rollback_fault : World → option exn;
  remove_fault : World → option exn
}.

(** A session method that never raises. *)
Definition no_fault (fault : World → option exn) : Prop :=
  ∀ w, fault w = None.

Inductive outcome (A : Type) :=
| Returns (a : A)
| Raises (e : exn).
Arguments Returns {A} a.
Arguments Raises {A} e.

Definition M (A : Type) : Type := World → World * outcome A.

#[global] Instance M_ret : MRet M := λ A a w, (w, Returns a).

#[global] Instance M_bind : MBind M := λ A B f m w,
  match m w with
  | (w', Returns a) => f a w'
  | (w', Raises e) => (w', Raises e)
  end.

Definition raise {A} (e : exn) : M A := λ w, (w, Raises e).

(** [try: m except <class> as e: handler e], the class test being
    [catches]. An exception raised by the handler propagates. *)
Definition try_except {A} (m : M A) (catches : exn → bool)
    (handler : exn → M A) : M A := λ w,
  match m w with
  | (w', Raises e) => if catches e then handler e w' else (w', Raises e)
  | r => r
  end.

(** [try: m finally: final]. The final block always runs; when it raises,
    its exception replaces the pending result. *)
Definition try_finally {A} (m : M A) (final : M unit) : M A := λ w,
  let '(w1, r) := m w in
  match final w1 with
  | (w2, Returns _) => (w2, r)
  | (w2, Raises e) => (w2, Raises e)
  end.

End Py.

(** ** The session, [sessions_scope] and [serialized] *)

Module Db.
Import Outbox Py.

Definition gave_up : exn :=
  PyException "Could not commit serialized transaction after 100 attempts.".

Section Environment.

(** The value type of the wrapped function. *)
Context {V : Type}.

(** The database behind the session. *)
Variable db : Database.

(** What the wrapped function does on its n-th invocation (counted from 0):
    the pairs it passes to [queue_message], then its return value or the
    exception it raises. The database statements of the function show only
    through that exception. *)
Variable func : nat → list pair_t * outcome V.

(** [session.connection(...)]: procures the connection of the current
    transaction; the transaction begins here when it has not begun yet,
    which fires the [after_begin] listener. *)
Definition session_connection : M unit := λ w,
  let w1 := record CallConnection w in
  match connection_fault db w with
  | Some e => (w1, Raises e)
  | None =>
      if begun w1 then (w1, Returns tt)
      else (set_session (after_begin (info w1)) true w1, Returns tt)
  end.

(** [session.commit()]: when the database commit succeeds the
    [after_commit] listener fires and the transaction is over.
    [commit_fault] is what the database raises at the commit; the listener
    has not fired then. The listener itself runs to its end: a
    [redis.publish] that raises part way through the outbox is outside
    this model, and no statement below says what is published when the
    commit raises anything but an error of the database. *)
Definition session_commit : M unit := λ w,
  let w1 := record CallCommit w in
  match commit_fault db w with
  | Some e => (w1, Raises e)
  | None =>
      (set_session (info w1) false
         (set_redis (after_commit (info w1) (redis w1)) w1), Returns tt)
  end.

(** [session.rollback()]: fires the [after_soft_rollback] listener; the
    transaction is over. *)
Definition session_rollback : M unit := λ w,
  let w1 := record CallRollback w in
  match rollback_fault db w with
  | Some e => (w1, Raises e)
  | None => (set_session (after_soft_rollback (info w1)) false w1, Returns tt)
  end.

(** [session.remove()]: closes the current session and discards it from
    the registry; the next use gets a new session, with an empty [info]. *)
Definition session_remove : M unit := λ w,
  let w1 := record CallRemove w in
  match remove_fault db w with
  | Some e => (w1, Raises e)
  | None => (set_session ∅ false w1, Returns tt)
  end.

Definition logger_exception (e : exn) : M unit := λ w,
  (record (LogException e) w, Returns tt).

(** A run of the body of a function that only enqueues: the calls to
    [queue_message], then the result. Such a body makes no session call
    of its own (no statement that begins the transaction, no savepoint,
    commit or rollback), so no listener fires inside it; what the
    listeners do in any order of firing is the subject of [Outbox.run]. *)
Definition unit_of_work (msgs : list pair_t) (out : outcome V) : M V := λ w,
  (set_session (foldl (λ i cm, queue_message cm.1 cm.2 i) (info w) msgs)
     (begun w) w, out).

(** The number of invocations of [func] so far. *)
Definition invocations (w : World) : nat := count CallFunc (trace w).

Definition call_func : M V := λ w,
  let '(msgs, out) := func (invocations w) in
  unit_of_work msgs out (record CallFunc w).

(** [sessions_scope(local_session, commit)] around a [with] body.

    [[
    try:
        yield local_session
        if commit:
            local_session.commit()
    except Exception as e:
        logger.exception(...)
        local_session.rollback()
        raise e
    finally:
        local_session.remove()
    ]]
    The body runs at the [yield]; an exception of the body is thrown into
    the generator at that point, and an exception leaving the generator
    leaves the [with] statement. The [logger.debug] calls are left out. *)
Definition sessions_scope {A} (commit : bool) (body : M A) : M A :=
  try_finally
    (try_except
       (x ← body;
        (if commit then session_commit else mret tt) ≫= λ _,
        mret x)
       isinstance_Exception
       (λ e, logger_exception e ≫= λ _,
             session_rollback ≫= λ _,
             raise e))
    session_remove.

(** One pass through the [try] block of [serialized]. *)
Definition attempt : M V :=
  session_connection ≫= λ _, sessions_scope true call_func.

(** What the [except OperationalError as exc] clause of [serialized] does
    with the caught exception while the counter has value [attempts]. *)
Inductive handled :=
| Retry (attempts' : Z)     (* attempts -= 1, back to the loop test *)
| Raise (e : exn).          (* raise Exception(...) / bare raise *)

Definition on_OperationalError (attempts : Z) (exc : exn) : handled :=
  match exc with
  | OperationalError orig =>
      if isinstance_TransactionRollbackError orig then
        if (attempts >? 0)%Z then Retry (attempts - 1)%Z
        else Raise gave_up
      else Raise exc
  | _ => Raise exc      (* not caught by the clause *)
  end.

(** The [while attempts > 0] loop of the wrapper. [None] is Python's
    [None], returned when the loop ends without a [return]. *)
Equations? serialized_loop (attempts : Z) (w : World)
    : World * outcome (option V) by wf (Z.to_nat attempts) lt :=
serialized_loop attempts w with inspect (attempts >? 0)%Z := {
  | exist _ false _ => (w, Returns None)
  | exist _ true Hwhile with attempt w := {
    | (w1, Returns v) => (w1, Returns (Some v))
    | (w1, Raises exc) with inspect (on_OperationalError attempts exc) := {
      | exist _ (Retry attempts') Hretry => serialized_loop attempts' w1
      | exist _ (Raise e) _ => (w1, Raises e) } } }.
Proof.
  unfold on_OperationalError in Hretry.
  destruct exc as [orig| |]; try discriminate.
  destruct (isinstance_TransactionRollbackError orig); try discriminate.
  rewrite Hwhile in Hretry. injection Hretry as <-. lia.
Qed.

(** [serialized(func)], called: [attempts = 100], then the loop. *)
Definition serialized : M (option V) := serialized_loop 100%Z.

(** *** Vocabulary of the statements below *)

(** The serialization conflict: an [OperationalError] whose [orig] is a
    [TransactionRollbackError]. *)
Definition conflict : exn := OperationalError TransactionRollbackError.

(** The world after [n] passes through the [try] block that each ended
    with the conflict; [None] when one of them ended otherwise. *)
Fixpoint after_conflicts (n : nat) (w : World) : option World :=
  match n with
  | O => Some w
  | S n' =>
      match attempt w with
      | (w1, Raises (OperationalError TransactionRollbackError)) =>
          after_conflicts n' w1
      | _ => None
      end
  end.

(** The [except] clause without its inner test [if attempts > 0] and
    without the [raise Exception(...)] of its [else] branch: a conflict
    always decrements the counter. *)
Definition on_OperationalError_retry_only (attempts : Z) (exc : exn)
    : handled :=
  match exc with
  | OperationalError orig =>
      if isinstance_TransactionRollbackError orig then Retry (attempts - 1)%Z
      else Raise exc
  | _ => Raise exc
  end.

(** The loop of the wrapper with that [except] clause. *)
Equations? serialized_loop_retry_only (attempts : Z) (w : World)
    : World * outcome (option V) by wf (Z.to_nat attempts) lt :=
serialized_loop_retry_only attempts w with inspect (attempts >? 0)%Z := {
  | exist _ false _ => (w, Returns None)
  | exist _ true Hwhile with attempt w := {
    | (w1, Returns v) => (w1, Returns (Some v))
    | (w1, Raises exc)
        with inspect (on_OperationalError_retry_only attempts exc) := {
      | exist _ (Retry attempts') Hretry =>
          serialized_loop_retry_only attempts' w1
      | exist _ (Raise e) _ => (w1, Raises e) } } }.
Proof.
  unfold on_OperationalError_retry_only in Hretry.
  destruct exc as [orig| |]; try discriminate.
  destruct (isinstance_TransactionRollbackError orig); try discriminate.
  injection Hretry as <-. lia.
Qed.

(** The calls made by [sessions_scope] once the body has raised [e]. *)
Definition on_error (e : exn) : list event :=
  if isinstance_Exception e then [LogException e; CallRollback; CallRemove]
  else [CallRemove].

(** The calls made by [sessions_scope] once the body has returned: the
    commit when requested, and the error path when that commit raised. *)
Definition on_return (commit : bool) (failure : option exn) : list event :=
  if commit then
    match failure with
    | Some e => CallCommit :: on_error e
    | None => [CallCommit; CallRemove]
    end
  else [CallRemove].

(** The world in which the function runs once [session.connection] has
    returned. *)
Definition connected (w : World) : World :=
  if begun w then record CallConnection w
  else set_session (after_begin (info w)) true (record CallConnection w).

(** [scoped_session_decorator(func)], called: the function runs in a
    [sessions_scope] that is not asked to commit. *)
Definition scoped_session_decorator : M V := sessions_scope false call_func.

End Environment.
End Db.

(** ** Sequences of transactions on one session *)

Module Transactions.
Import Outbox.

(** How a transaction ends. *)
Inductive ending :=
| Commits       (* the commit succeeds: after_commit fires *)
| RollsBack.    (* a rollback: after_soft_rollback fires *)

(** The listener and enqueue calls of one transaction: it begins, enqueues
    its pairs and ends. *)
Definition transaction (t : list pair_t * ending) : list hook :=
  Begin :: ((λ cm, Queue cm.1 cm.2) <$> t.1)
        ++ [match t.2 with Commits => Commit | RollsBack => SoftRollback end].

(** The pairs of the transactions that commit, in order. *)
Definition delivered (ts : list (list pair_t * ending)) : list pair_t :=
  concat ((λ t, match t.2 with Commits => t.1 | RollsBack => [] end) <$> ts).

End Transactions.

(** ** [init_db] *)

Module InitDb.
Import Py.

(** The double-quote character. *)
Definition dquote : string :=
  String (Ascii.Ascii false true false false false true false false)
    EmptyString.

(** [msg] of [init_db]. *)
Definition msg : string :=
  "password authentication failed for user " +:+ dquote +:+ "dallinger"
  +:+ dquote.

Definition stars : string :=
  "*********************************************************".

Definition newline : string :=
  String (Ascii.Ascii false true false true false false false false)
    EmptyString.

(** [db_user_warning], line by line. *)
Definition db_user_warning_lines : list string :=
  [ ""; stars; stars; ""; "";
    "Dallinger now requires a database user named " +:+ dquote
      +:+ "dallinger" +:+ dquote +:+ ".";
    ""; "Run:"; ""; "    createuser -P dallinger --createdb"; "";
    "Consult the developer guide for more information."; ""; "";
    stars; stars; ""; "" ].

Fixpoint join (sep : string) (lines : list string) : string :=
  match lines with
  | [] => ""
  | [l] => l
  | l :: rest => l +:+ sep +:+ join sep rest
  end.

Definition db_user_warning : string := join newline db_user_warning_lines.

(** [prefix] is an initial segment of [s]. *)
Fixpoint starts_with (prefix s : string) : bool :=
  match prefix, s with
  | EmptyString, _ => true
  | String a prefix', String b s' =>
      if Ascii.eqb a b then starts_with prefix' s' else false
  | String _ _, EmptyString => false
  end.

(** Python's [needle in hay] on strings. *)
Fixpoint contains (needle hay : string) : bool :=
  starts_with needle hay ||
  match hay with
  | EmptyString => false
  | String _ hay' => contains needle hay'
  end.

(** The calls on [Base.metadata]. *)
Inductive schema_call := DropAll | CreateAll.

(** The schema calls made and what was written to [sys.stderr], oldest
    first. *)
Record Console := mkConsole {
  schema_calls : list schema_call;
  stderr : list string
}.

(** What the engine does: the exception each schema call raises in a given
    state, if any, and the [message] attribute of an exception. *)
Record Engine := mkEngine {
  drop_all_fault : Console → option exn;
  create_all_fault : Console → option exn;
  message : exn → string
}.

Section Engine.

Variable engine : Engine.

Definition metadata_drop_all (c : Console) : Console * outcome unit :=
  let c1 := mkConsole (schema_calls c ++ [DropAll]) (stderr c) in
  match drop_all_fault engine c with
  | Some e => (c1, Raises e)
  | None => (c1, Returns tt)
  end.

Definition metadata_create_all (c : Console) : Console * outcome unit :=
  let c1 := mkConsole (schema_calls c ++ [CreateAll]) (stderr c) in
  match create_all_fault engine c with
  | Some e => (c1, Raises e)
  | None => (c1, Returns tt)
  end.

Definition stderr_write (text : string) (c : Console) : Console :=
  mkConsole (schema_calls c) (stderr c ++ [text]).

(** The [try] block of [init_db]. *)
Definition create_tables (drop_all : bool) (c : Console)
    : Console * outcome unit :=
  match (if drop_all then metadata_drop_all c else (c, Returns tt)) with
  | (c1, Returns _) => metadata_create_all c1
  | (c1, Raises e) => (c1, Raises e)
  end.

(** [init_db(drop_all, bind)]; [Returns tt] stands for [return session]. *)
Definition init_db (drop_all : bool) (c : Console)
    : Console * outcome unit :=
  match create_tables drop_all c with
  | (c1, Raises (OperationalError orig)) =>
      let err := OperationalError orig in
      let c2 :=
        if contains msg (message engine err)
        then stderr_write db_user_warning c1 else c1 in
      (c2, Raises err)
  | r => r
  end.

End Engine.
End InitDb.

(** ** Sample environments *)

Module Samples.
Import Outbox Py Db.

(** A database whose session methods never raise. *)
Definition reliable : Database :=
  mkDatabase (λ _, None) (λ _, None) (λ _, None) (λ _, None).

(** A database whose rollback always raises [e]. *)
Definition rollback_fails (e : exn) : Database :=
  mkDatabase (λ _, None) (λ _, None) (λ _, Some e) (λ _, None).
Definition new_world : World := mkWorld ∅ false [] [].
Definition domain_error : exn := PyException "DomainError".
Definition connection_lost : exn :=
  OperationalError (DriverError "server closed the connection unexpectedly").
Definition job_done : list pair_t := [("alerts", "job:42:done")].

(** The world one conflicting attempt after [new_world]. *)
Definition after_one_conflict : World :=
  mkWorld ∅ false []
    [CallConnection; CallFunc; LogException conflict; CallRollback;
     CallRemove].

(** A function that enqueues a pair and raises the conflict, always. *)
Definition always_conflict : nat → list pair_t * outcome nat :=
  λ _, (job_done, Raises conflict).

(** A function that raises the conflict on its first [k] invocations and
    then ends with [out]. *)
Definition conflict_then (k : nat) (out : outcome nat)
    : nat → list pair_t * outcome nat :=
  λ n, (job_done, if Nat.ltb n k then Raises conflict else out).

(** A database whose commit raises the conflict as long as the function
    has been invoked at most [k] times. *)
Definition commit_conflicts (k : nat) : Database :=
  mkDatabase (λ _, None)
    (λ w, if Nat.leb (invocations w) k then Some conflict else None)
    (λ _, None) (λ _, None).

(** A database whose rollback always raises the conflict. *)
Definition rollback_conflicts : Database := rollback_fails conflict.


(** A database whose connection cannot be obtained. *)
Definition unreachable : Database :=
  mkDatabase (λ _, Some connection_lost) (λ _, None) (λ _, None)
    (λ _, None).

(** A function that always returns its invocation number. *)
Definition count_up : nat → list pair_t * outcome nat :=
  λ n, (job_done, Returns n).

(** A database whose commit always raises the conflict. *)
Definition commit_always_conflicts : Database :=
  mkDatabase (λ _, None) (λ _, Some conflict) (λ _, None) (λ _, None).



(** The error a server raises to a user it does not know. *)
Definition auth_failure : exn := OperationalError (DriverError "FATAL").

(** An engine that cannot create the tables for lack of the user. *)
Definition engine_without_user : InitDb.Engine :=
  InitDb.mkEngine (λ _, None) (λ _, Some auth_failure)
    (λ _, "(psycopg2.OperationalError) FATAL:  " +:+ InitDb.msg).

(** An engine that cannot drop the tables. *)
Definition engine_without_drop : InitDb.Engine :=
  InitDb.mkEngine (λ _, Some connection_lost) (λ _, None)
    (λ _, "server closed the connection unexpectedly").

End Samples.

(** ** Facts about the outbox *)

Module OutboxFacts.
Import Outbox.

Lemma publish_all (l redis : list pair_t) :
  foldl (λ r cm, publish cm.1 cm.2 r) redis l = redis ++ l.
Proof.
  revert redis. induction l as [|[c m] l IH]; intros redis; simpl.
  - symmetry. apply app_nil_r.
  - rewrite IH. unfold publish. by rewrite <- app_assoc.
Qed.

Lemma after_commit_spec (info : Info) redis :
  after_commit info redis = redis ++ outbox info.
Proof. apply publish_all. Qed.

Lemma outbox_after_begin (info : Info) : outbox (after_begin info) = [].
Proof. unfold outbox, after_begin. by rewrite lookup_insert_eq. Qed.

Lemma outbox_after_soft_rollback (info : Info) :
  outbox (after_soft_rollback info) = [].
Proof. unfold outbox, after_soft_rollback. by rewrite lookup_insert_eq. Qed.

Lemma outbox_queue_message c m (info : Info) :
  outbox (queue_message c m info) = outbox info ++ [(c, m)].
Proof.
  unfold outbox, queue_message.
  destruct (info !! "outbox") as [l|] eqn:E.
  - rewrite bool_decide_eq_true_2 by eauto. cbv beta iota zeta.
    rewrite E. by rewrite lookup_insert_eq.
  - rewrite bool_decide_eq_false_2 by (intros [? ?]; congruence).
    cbv beta iota zeta. rewrite lookup_insert_eq. by rewrite lookup_insert_eq.
Qed.


Lemma outbox_queue_all (msgs : list pair_t) (info : Info) :
  outbox (foldl (λ i cm, queue_message cm.1 cm.2 i) info msgs)
  = outbox info ++ msgs.
Proof.
  revert info. induction msgs as [|[c m] msgs IH]; intros info; simpl.
  - symmetry. apply app_nil_r.
  - rewrite IH, outbox_queue_message. by rewrite <- app_assoc.
Qed.

Lemma run_app hs1 hs2 st : run (hs1 ++ hs2) st = run hs2 (run hs1 st).
Proof. apply foldl_app. Qed.

Lemma run_cons h hs st : run (h :: hs) st = run hs (step st h).
Proof. reflexivity. Qed.

(** Only the [after_commit] listener calls the publish primitive. *)
Lemma step_publishes st h :
  (step st h).2 = st.2 ++ (if h is Commit then outbox st.1 else []).
Proof.
  destruct h; simpl; try (symmetry; apply app_nil_r).
  apply after_commit_spec.
Qed.

(** Without a reset the outbox grows by the pairs enqueued, in order. *)
Lemma outbox_run_no_reset body :
  Forall (λ h, is_reset h = false) body →
  ∀ st, outbox (run body st).1 = outbox st.1 ++ enqueued body.
Proof.
  induction 1 as [|h body Hh _ IH]; intros st.
  - symmetry. apply app_nil_r.
  - rewrite run_cons, IH. destruct h as [| |c m|]; try discriminate; simpl.
    + rewrite outbox_queue_message. by rewrite <- app_assoc.
    + reflexivity.
Qed.

Lemma outbox_after_reset r st : is_reset r = true → outbox (step st r).1 = [].
Proof.
  destruct r; try discriminate; intros _; simpl.
  - apply outbox_after_begin.
  - apply outbox_after_soft_rollback.
Qed.




(** C2. When the [after_commit] listener fires, the calls to
    [redis.publish] it makes are exactly the pairs passed to
    [queue_message] since the last reset of the outbox ([after_begin] or
    [after_soft_rollback]), in the order they were enqueued and one call
    per pair; what was enqueued before that reset is not published. *)
Theorem commit_publishes_pending pre r body st :
  is_reset r = true →
  Forall (λ h, is_reset h = false) body →
  let st' := run (pre ++ r :: body) st in
  (step st' Commit).2 = st'.2 ++ enqueued body.
Proof.
  intros Hr Hbody st'. rewrite step_publishes. f_equal. subst st'.
  rewrite run_app, run_cons, outbox_run_no_reset by done.
  by rewrite outbox_after_reset.
Qed.

Lemma commit_publishes_pending_witness :
  let pre := [Queue "alerts" "stale"] in
  let body := [Queue "alerts" "job:42:done"; Queue "audit" "job:42"] in
  (step (run (pre ++ SoftRollback :: body) (∅, [])) Commit).2
  = [("alerts", "job:42:done"); ("audit", "job:42")].
Proof.
  intros pre body.
  rewrite (commit_publishes_pending pre SoftRollback body (∅, []));
    [ reflexivity | reflexivity | repeat constructor ].
Defined.

(** A session that was never reset (a new session, whose [info] is empty)
    publishes everything enqueued so far. *)
Lemma commit_publishes_new_session body redis :
  Forall (λ h, is_reset h = false) body →
  let st' := run body (∅, redis) in
  (step st' Commit).2 = st'.2 ++ enqueued body.
Proof.
  intros Hbody st'. rewrite step_publishes. f_equal. subst st'.
  by rewrite outbox_run_no_reset.
Qed.

(** C9, as the code has it. The [after_commit] listener publishes the whole
    outbox in order and leaves [session.info] as it was: the outbox is not
    emptied by the commit. It is emptied by the next [after_begin] or
    [after_soft_rollback]; when the listener fires again before that, the
    same pairs are published again. *)
Theorem after_commit_keeps_outbox (info : Info) redis :
  step (info, redis) Commit = (info, redis ++ outbox info) ∧
  run [Commit; Commit] (info, redis)
    = (info, redis ++ outbox info ++ outbox info) ∧
  outbox (after_begin info) = [] ∧
  outbox (after_soft_rollback info) = [].
Proof.
  split; [|split; [|split]].
  - simpl. by rewrite after_commit_spec.
  - unfold run. simpl. rewrite !after_commit_spec. by rewrite <- app_assoc.
  - apply outbox_after_begin.
  - apply outbox_after_soft_rollback.
Qed.

(** C9 fails as stated: after the commit the outbox still holds the pair. *)
Lemma outbox_not_emptied_by_commit :
  outbox (run [Begin; Queue "alerts" "job:42:done"; Commit] (∅, [])).1
  = [("alerts", "job:42:done")] ∧
  outbox (run [Begin; Queue "alerts" "job:42:done"; Commit] (∅, [])).1 ≠ [].
Proof. split; [reflexivity | discriminate]. Qed.

End OutboxFacts.

(** ** Facts about [sessions_scope] *)

Module ScopeFacts.
Import Outbox Py Db Samples OutboxFacts.

(** Unfolds the monad and the [try] combinators. *)
Ltac unfold_scope :=
  unfold sessions_scope, try_finally, try_except, session_commit,
    session_rollback, session_remove, logger_exception, raise,
    mbind, M_bind, mret, M_ret in *.

(** Case analysis on what the database does at each session call. *)
Ltac split_faults :=
  repeat match goal with
         | |- context [match ?f ?x with Some _ => _ | None => _ end] =>
             destruct (f x) eqn:?; simpl
         end.

Section Scope.

Context {A : Type}.
Variable db : Database.

Lemma trace_record ev w : trace (record ev w) = trace w ++ [ev].
Proof. reflexivity. Qed.

Lemma scope_trace_raises commit (body : M A) w wb e :
  body w = (wb, Raises e) →
  trace (sessions_scope db commit body w).1 = trace wb ++ on_error e.
Proof.
  intros Hb. unfold_scope. unfold on_error. rewrite Hb.
  destruct (isinstance_Exception e); simpl; split_faults;
    by rewrite <- ?app_assoc.
Qed.

Lemma scope_trace_returns commit (body : M A) w wb a :
  body w = (wb, Returns a) →
  trace (sessions_scope db commit body w).1
  = trace wb ++ on_return commit (commit_fault db wb).
Proof.
  intros Hb. unfold_scope. unfold on_return, on_error. rewrite Hb.
  destruct commit; simpl.
  - destruct (commit_fault db wb) as [e|]; simpl.
    + destruct (isinstance_Exception e); simpl; split_faults;
        by rewrite <- ?app_assoc.
    + split_faults; by rewrite <- ?app_assoc.
  - split_faults; reflexivity.
Qed.

Lemma on_error_remove e :
  count CallRemove (on_error e) = 1 ∧ last (on_error e) = Some CallRemove.
Proof. unfold on_error. by destruct (isinstance_Exception e). Qed.

Lemma on_return_remove commit failure :
  count CallRemove (on_return commit failure) = 1 ∧
  last (on_return commit failure) = Some CallRemove.
Proof.
  unfold on_return, on_error. destruct commit; [|done].
  destruct failure as [e|]; [|done].
  by destruct (isinstance_Exception e).
Qed.

(** C8. On every way out of [sessions_scope] (the body returned and no
    commit was asked, the commit returned, the commit raised, the body
    raised, the rollback raised) the scope calls [local_session.remove()]
    exactly once, and it is the last call the scope makes. *)
Theorem sessions_scope_removes_once commit (body : M A) w :
  ∃ calls,
    trace (sessions_scope db commit body w).1 = trace (body w).1 ++ calls ∧
    count CallRemove calls = 1 ∧
    last calls = Some CallRemove.
Proof.
  destruct (body w) as [wb [a|e]] eqn:Hb; simpl.
  - exists (on_return commit (commit_fault db wb)).
    split; [by eapply scope_trace_returns | apply on_return_remove].
  - exists (on_error e).
    split; [by eapply scope_trace_raises | apply on_error_remove].
Qed.

(** C6. When the body run under [sessions_scope] raises an error [e] (an
    instance of [Exception]), the scope logs it, calls
    [local_session.rollback()] and then [local_session.remove()] before
    control leaves, makes no commit and no publish; and when the rollback
    and the remove return, the exception that leaves the scope is [e]. *)
Theorem sessions_scope_rolls_back_and_reraises commit (body : M A) w wb e :
  body w = (wb, Raises e) →
  isinstance_Exception e = true →
  trace (sessions_scope db commit body w).1
    = trace wb ++ [LogException e; CallRollback; CallRemove] ∧
  redis (sessions_scope db commit body w).1 = redis wb ∧
  (no_fault (rollback_fault db) → no_fault (remove_fault db) →
   (sessions_scope db commit body w).2 = Raises e).
Proof.
  intros Hb He. split; [|split].
  - rewrite (scope_trace_raises _ _ _ _ _ Hb). unfold on_error. by rewrite He.
  - unfold_scope. rewrite Hb, He. simpl. by split_faults.
  - intros Hrb Hrm. unfold_scope. rewrite Hb, He. simpl.
    rewrite Hrb. simpl. by rewrite Hrm.
Qed.

(** C7, as the code has it. When the body raises an error [e] and the
    rollback then raises [er], the exception that leaves the scope is [er],
    the failure of the rollback (the [raise e] of the handler is not
    reached). The error [e] was passed to [logger.exception] before the
    rollback was called, and the session is still removed. *)
Theorem sessions_scope_rollback_failure_propagates commit (body : M A)
    w wb e er :
  body w = (wb, Raises e) →
  isinstance_Exception e = true →
  rollback_fault db (record (LogException e) wb) = Some er →
  no_fault (remove_fault db) →
  (sessions_scope db commit body w).2 = Raises er ∧
  trace (sessions_scope db commit body w).1
    = trace wb ++ [LogException e; CallRollback; CallRemove].
Proof.
  intros Hb He Hrb Hrm. split.
  - unfold_scope. rewrite Hb, He. simpl. rewrite Hrb. simpl. by rewrite Hrm.
  - rewrite (scope_trace_raises _ _ _ _ _ Hb). unfold on_error. by rewrite He.
Qed.


End Scope.

Section Publish.

Context {V : Type}.
Variable db : Database.

Lemma unit_of_work_spec (msgs : list pair_t) (out : outcome V) w :
  unit_of_work msgs out w
  = (set_session (foldl (λ i cm, queue_message cm.1 cm.2 i) (info w) msgs)
       (begun w) w, out).
Proof. reflexivity. Qed.

End Publish.


Lemma sessions_scope_rolls_back_and_reraises_witness :
  let run :=
    sessions_scope reliable true
      (unit_of_work (V := nat) job_done (Raises domain_error)) new_world in
  trace run.1 = [LogException domain_error; CallRollback; CallRemove] ∧
  redis run.1 = [] ∧
  run.2 = Raises domain_error.
Proof.
  intros run.
  destruct (sessions_scope_rolls_back_and_reraises reliable true
              (unit_of_work (V := nat) job_done (Raises domain_error))
              new_world
              (unit_of_work (V := nat) job_done (Raises domain_error)
                 new_world).1
              domain_error eq_refl eq_refl) as (Ht & Hr & He).
  split; [exact Ht | split; [exact Hr |]].
  apply He; intros ?; reflexivity.
Defined.

(** C7 fails as stated: the rollback fails and its failure, not the error
    of the body, leaves the scope. *)
Lemma rollback_failure_replaces_error :
  (sessions_scope (rollback_fails connection_lost) true
     (unit_of_work (V := nat) job_done (Raises domain_error)) new_world).2
  = Raises connection_lost ∧
  (sessions_scope (rollback_fails connection_lost) true
     (unit_of_work (V := nat) job_done (Raises domain_error)) new_world).2
  ≠ Raises domain_error.
Proof. split; [reflexivity | discriminate]. Qed.

Lemma sessions_scope_rollback_failure_propagates_witness :
  let run :=
    sessions_scope (rollback_fails connection_lost) false
      (unit_of_work (V := nat) job_done (Raises domain_error)) new_world in
  run.2 = Raises connection_lost ∧
  trace run.1 = [LogException domain_error; CallRollback; CallRemove].
Proof.
  intros run.
  apply (sessions_scope_rollback_failure_propagates
           (rollback_fails connection_lost) false
           (unit_of_work (V := nat) job_done (Raises domain_error))
           new_world
           (unit_of_work (V := nat) job_done (Raises domain_error)
              new_world).1
           domain_error connection_lost eq_refl eq_refl eq_refl).
  intros ?; reflexivity.
Defined.

End ScopeFacts.

(** ** Facts about [serialized] *)

Module SerializedFacts.
Import Outbox Py Db Samples OutboxFacts ScopeFacts.

Lemma count_app ev t1 t2 : count ev (t1 ++ t2) = count ev t1 + count ev t2.
Proof. unfold count. by rewrite List.filter_app, length_app. Qed.

Section Loop.

Context {V : Type}.
Variable db : Database.
Variable func : nat → list pair_t * outcome V.

(** One turn of the [while] loop. *)
Lemma loop_unfold attempts w :
  serialized_loop db func attempts w =
  if (attempts >? 0)%Z then
    match attempt db func w with
    | (w1, Returns v) => (w1, Returns (Some v))
    | (w1, Raises exc) =>
        match on_OperationalError attempts exc with
        | Retry attempts' => serialized_loop db func attempts' w1
        | Raise e => (w1, Raises e)
        end
    end
  else (w, Returns None).
Proof.
  funelim (serialized_loop db func attempts w);
    repeat match goal with
           | H : (_ >? _)%Z = _ |- _ => rewrite H
           | H : attempt db func _ = _ |- _ => rewrite H
           | H : on_OperationalError _ _ = _ |- _ => rewrite H
           end; reflexivity.
Qed.

Lemma loop_retry_only_unfold attempts w :
  serialized_loop_retry_only db func attempts w =
  if (attempts >? 0)%Z then
    match attempt db func w with
    | (w1, Returns v) => (w1, Returns (Some v))
    | (w1, Raises exc) =>
        match on_OperationalError_retry_only attempts exc with
        | Retry attempts' => serialized_loop_retry_only db func attempts' w1
        | Raise e => (w1, Raises e)
        end
    end
  else (w, Returns None).
Proof.
  funelim (serialized_loop_retry_only db func attempts w);
    repeat match goal with
           | H : (_ >? _)%Z = _ |- _ => rewrite H
           | H : attempt db func _ = _ |- _ => rewrite H
           | H : on_OperationalError_retry_only _ _ = _ |- _ => rewrite H
           end; reflexivity.
Qed.

(** Inside the loop body the inner test of the [except] clause is true. *)
Lemma on_OperationalError_in_loop attempts exc :
  (attempts >? 0)%Z = true →
  on_OperationalError attempts exc
  = on_OperationalError_retry_only attempts exc.
Proof.
  intros Hwhile. unfold on_OperationalError, on_OperationalError_retry_only.
  by rewrite Hwhile.
Qed.

Lemma on_OperationalError_conflict attempts :
  (attempts >? 0)%Z = true →
  on_OperationalError attempts conflict = Retry (attempts - 1)%Z.
Proof. intros Hwhile. unfold on_OperationalError. simpl. by rewrite Hwhile. Qed.

Lemma on_OperationalError_other attempts e :
  e ≠ conflict → on_OperationalError attempts e = Raise e.
Proof.
  intros He. destruct e as [[|name]| |]; simpl; try reflexivity.
  by destruct He.
Qed.

Lemma loop_retry_only_eq attempts w :
  serialized_loop db func attempts w
  = serialized_loop_retry_only db func attempts w.
Proof.
  funelim (serialized_loop db func attempts w); rewrite loop_retry_only_unfold;
    repeat match goal with
           | H : (_ >? _)%Z = _ |- _ => rewrite H
           | H : attempt db func _ = _ |- _ => rewrite H
           end; try reflexivity.
  - rewrite <- on_OperationalError_in_loop, Hretry by done. assumption.
  - rewrite <- on_OperationalError_in_loop by done.
    by match goal with H : on_OperationalError _ _ = _ |- _ => rewrite H end.
Qed.

(** [n] conflicts in a row use up [n] units of the counter. *)
Lemma loop_after_conflicts n : ∀ attempts w w',
  after_conflicts db func n w = Some w' →
  (Z.of_nat n ≤ attempts)%Z →
  serialized_loop db func attempts w
  = serialized_loop db func (attempts - Z.of_nat n)%Z w'.
Proof.
  induction n as [|n IH]; intros attempts w w' Hc Hle.
  - injection Hc as <-. f_equal. lia.
  - simpl in Hc. rewrite loop_unfold.
    assert (Hwhile : (attempts >? 0)%Z = true) by lia. rewrite Hwhile.
    destruct (attempt db func w) as [w1 [v|[[|name]| |]]]; try discriminate.
    change (OperationalError TransactionRollbackError) with conflict.
    rewrite on_OperationalError_conflict by done.
    rewrite (IH _ _ _ Hc) by lia. f_equal. lia.
Qed.

Lemma loop_exhausted w : serialized_loop db func 0 w = (w, Returns None).
Proof. by rewrite loop_unfold. Qed.

(** An attempt that ends with anything but the conflict ends the loop:
    its exception leaves the wrapper, in the state the attempt left. *)
Lemma serialized_propagates_other_error k w wk w' e :
  k < 100 →
  after_conflicts db func k w = Some wk →
  attempt db func wk = (w', Raises e) →
  e ≠ conflict →
  serialized db func w = (w', Raises e).
Proof.
  intros Hk Hc Ht He. unfold serialized.
  rewrite (loop_after_conflicts k 100 w wk Hc) by lia.
  rewrite loop_unfold.
  assert (Hwhile : (100 - Z.of_nat k >? 0)%Z = true) by lia.
  by rewrite Hwhile, Ht, on_OperationalError_other.
Qed.

Lemma on_OperationalError_reraises attempts exc e :
  (attempts >? 0)%Z = true →
  on_OperationalError attempts exc = Raise e → e = exc.
Proof.
  intros Hwhile. unfold on_OperationalError. rewrite Hwhile.
  destruct exc as [[|name]| |]; simpl; congruence.
Qed.

(** An exception that leaves the loop is the one an attempt ended with. *)
Lemma loop_raises_from_attempt attempts w w' e :
  serialized_loop db func attempts w = (w', Raises e) →
  ∃ w0, attempt db func w0 = (w', Raises e).
Proof.
  funelim (serialized_loop db func attempts w); intros Hl; try discriminate.
  - eauto.
  - injection Hl as -> ->. exists w.
    match goal with
    | H : on_OperationalError _ _ = Raise _ |- _ =>
        rewrite (on_OperationalError_reraises _ _ _ Hwhile H)
    end.
    assumption.
Qed.

Lemma serialized_after_100_conflicts w w' :
  after_conflicts db func 100 w = Some w' →
  serialized db func w = (w', Returns None).
Proof.
  intros Hc. unfold serialized.
  rewrite (loop_after_conflicts 100 100 w w' Hc) by lia.
  apply loop_exhausted.
Qed.

(** C10. The inner test [attempts > 0] of the [except] clause holds
    whenever the clause is entered, since the loop body runs under the same
    test: the wrapper behaves, for every counter value and every state, as
    the loop whose clause has no [else: raise Exception(...)] branch, and
    an exception that leaves the loop is always the one an attempt ended
    with. When the budget is used up (100 attempts in a row ended with the
    conflict) the loop ends and the wrapper returns [None]; it does not
    raise. *)
Theorem serialized_give_up_unreachable :
  (∀ attempts w,
     serialized_loop db func attempts w
     = serialized_loop_retry_only db func attempts w) ∧
  (∀ attempts w w' e,
     serialized_loop db func attempts w = (w', Raises e) →
     ∃ w0, attempt db func w0 = (w', Raises e)) ∧
  (∀ w w',
     after_conflicts db func 100 w = Some w' →
     serialized db func w = (w', Returns None)).
Proof.
  split; [|split].
  - apply loop_retry_only_eq.
  - apply loop_raises_from_attempt.
  - apply serialized_after_100_conflicts.
Qed.

(** *** One attempt, when the session methods do not raise *)

Hypothesis connection_ok : no_fault (connection_fault db).
Hypothesis rollback_ok : no_fault (rollback_fault db).
Hypothesis remove_ok : no_fault (remove_fault db).

Ltac unfold_attempt :=
  unfold attempt, session_connection, call_func; unfold_scope.

Lemma invocations_connection w :
  invocations (record CallConnection w) = invocations w.
Proof.
  unfold invocations. rewrite trace_record, count_app.
  change (count CallFunc [CallConnection]) with 0. lia.
Qed.

Lemma attempt_func_raises w e :
  (func (invocations w)).2 = Raises e →
  isinstance_Exception e = true →
  attempt db func w
  = (mkWorld ∅ false (redis w)
       (trace w ++ [CallConnection; CallFunc; LogException e;
                    CallRollback; CallRemove]),
     Raises e).
Proof.
  intros Hf He. unfold_attempt. rewrite connection_ok.
  assert (Hn : ∀ i b, invocations
                 (set_session i b (record CallConnection w)) = invocations w)
    by (intros; apply invocations_connection).
  destruct (begun (record CallConnection w));
    [ rewrite invocations_connection | rewrite Hn ];
    destruct (func (invocations w)) as [msgs out]; simpl in Hf; subst out;
    rewrite unit_of_work_spec, He; simpl;
    rewrite rollback_ok; simpl; rewrite remove_ok; simpl;
    unfold set_session, record; simpl; by rewrite <- !app_assoc.
Qed.

Lemma attempt_func_returns w v :
  no_fault (commit_fault db) →
  (func (invocations w)).2 = Returns v →
  (attempt db func w).2 = Returns v ∧
  trace (attempt db func w).1
  = trace w ++ [CallConnection; CallFunc; CallCommit; CallRemove] ∧
  redis (attempt db func w).1
  = redis w ++ (if begun w then outbox (info w) else [])
            ++ (func (invocations w)).1.
Proof.
  intros commit_ok Hf. unfold_attempt. rewrite connection_ok.
  assert (Hn : ∀ i b, invocations
                 (set_session i b (record CallConnection w)) = invocations w)
    by (intros; apply invocations_connection).
  change (begun (record CallConnection w)) with (begun w).
  destruct (begun w);
    [ rewrite invocations_connection | rewrite Hn ];
    destruct (func (invocations w)) as [msgs out]; simpl in Hf; subst out;
    rewrite unit_of_work_spec; simpl;
    rewrite commit_ok; simpl; rewrite remove_ok; simpl;
    rewrite after_commit_spec; simpl; rewrite outbox_queue_all;
    (split; [reflexivity | split; [by rewrite <- !app_assoc |]]).
  - reflexivity.
  - by rewrite outbox_after_begin.
Qed.

Lemma invocations_after_attempt w calls :
  count CallFunc calls = 1 →
  count CallFunc (trace w ++ calls) = S (invocations w).
Proof. intros H. rewrite count_app, H. unfold invocations. lia. Qed.

(** The function raises the conflict on its next [k] invocations. *)
Lemma conflicts_of_func k : ∀ w,
  (∀ i, i < k → (func (invocations w + i)).2 = Raises conflict) →
  ∃ w', after_conflicts db func k w = Some w' ∧
        invocations w' = invocations w + k ∧
        redis w' = redis w.
Proof.
  induction k as [|k IH]; intros w Hf.
  - exists w. split; [done | split; [lia | done]].
  - assert (H0 : (func (invocations w)).2 = Raises conflict).
    { specialize (Hf 0 ltac:(lia)). by rewrite Nat.add_0_r in Hf. }
    simpl. rewrite (attempt_func_raises w conflict H0 eq_refl).
    set (w1 := mkWorld _ _ _ _).
    assert (Hinv : invocations w1 = S (invocations w))
      by (apply invocations_after_attempt; reflexivity).
    destruct (IH w1) as (w' & Hc & Hi & Hr).
    { intros i Hi. specialize (Hf (S i) ltac:(lia)).
      by rewrite Hinv, Nat.add_succ_comm. }
    exists w'. split; [exact Hc | split; [lia | exact Hr]].
Qed.

(** C4. A function that raises the conflict on its first [k] invocations,
    [k < 100], and returns [v] on the next one makes the wrapper return [v]
    after exactly [k + 1] invocations. *)
Theorem serialized_returns_after_conflicts k v w :
  no_fault (commit_fault db) →
  k < 100 →
  (∀ i, i < k → (func (invocations w + i)).2 = Raises conflict) →
  (func (invocations w + k)).2 = Returns v →
  (serialized db func w).2 = Returns (Some v) ∧
  invocations (serialized db func w).1 = invocations w + S k.
Proof.
  intros commit_ok Hk Hconf Hret.
  destruct (conflicts_of_func k w Hconf) as (wk & Hc & Hi & _).
  unfold serialized. rewrite (loop_after_conflicts k 100 w wk Hc) by lia.
  rewrite loop_unfold.
  assert (Hwhile : (100 - Z.of_nat k >? 0)%Z = true) by lia.
  rewrite Hwhile. rewrite <- Hi in Hret.
  destruct (attempt_func_returns wk v commit_ok Hret) as (Hv & Ht & _).
  destruct (attempt db func wk) as [w1 o]. simpl in *. subst o. simpl.
  split; [done|].
  unfold invocations at 1. rewrite Ht.
  rewrite invocations_after_attempt by reflexivity. lia.
Qed.

(** C3, as the code has it. A function that raises the conflict on every
    invocation is invoked exactly 100 times; the wrapper then returns
    [None]. No exception leaves the wrapper and nothing is published. *)
Theorem serialized_exhausted_returns_None w :
  (∀ n, (func n).2 = Raises conflict) →
  (serialized db func w).2 = Returns None ∧
  invocations (serialized db func w).1 = invocations w + 100 ∧
  redis (serialized db func w).1 = redis w.
Proof.
  intros Hconf.
  destruct (conflicts_of_func 100 w) as (w' & Hc & Hi & Hr);
    [intros; apply Hconf|].
  by rewrite (serialized_after_100_conflicts w w' Hc).
Qed.

End Loop.

(** C5, as the code has it. An error [e] raised by the function that is not
    the conflict (an instance of [Exception]: a domain error, or an
    [OperationalError] whose [orig] is not a [TransactionRollbackError]),
    with session methods ([connection], [rollback], [remove]) that return,
    ends the wrapper: the attempt invokes the function once, the scope logs
    the error, rolls back and removes the session, [e] leaves the wrapper
    and no further attempt is made. Nothing is published. *)
Theorem serialized_other_error_not_retried {V} (db : Database)
    (func : nat → list pair_t * outcome V) k w wk e :
  no_fault (connection_fault db) →
  no_fault (rollback_fault db) →
  no_fault (remove_fault db) →
  k < 100 →
  after_conflicts db func k w = Some wk →
  (func (invocations wk)).2 = Raises e →
  isinstance_Exception e = true →
  e ≠ conflict →
  (serialized db func w).2 = Raises e ∧
  trace (serialized db func w).1
    = trace wk ++ [CallConnection; CallFunc; LogException e;
                   CallRollback; CallRemove] ∧
  redis (serialized db func w).1 = redis wk.
Proof.
  intros Hcn Hrb Hrm Hk Hc Hf He Hne.
  by rewrite (serialized_propagates_other_error db func k w wk _ e Hk Hc
                (attempt_func_raises db func Hcn Hrb Hrm wk e Hf He) Hne).
Qed.

End SerializedFacts.

(** ** Concrete runs *)

Module Runs.
Import Outbox Py Db Samples SerializedFacts.

(** Enqueue [("alerts", "job:42:done")] and commit: one publish. *)
Example commit_publishes_job_done :
  redis (sessions_scope reliable true
           (unit_of_work (V := nat) job_done (Returns 0)) new_world).1
  = [("alerts", "job:42:done")].
Proof. reflexivity. Qed.

(** Enqueue the same pair and raise a domain error: no publish, a rollback,
    and the error leaves the scope. *)
Example domain_error_publishes_nothing :
  sessions_scope reliable true
    (unit_of_work (V := nat) job_done (Raises domain_error)) new_world
  = (mkWorld ∅ false []
       [LogException domain_error; CallRollback; CallRemove],
     Raises domain_error).
Proof. reflexivity. Qed.

(** Two conflicts, then success: three invocations, and the pair of the
    successful attempt is published once. *)
Example two_conflicts_then_success :
  let run := serialized reliable (conflict_then 2 (Returns 7)) new_world in
  run.2 = Returns (Some 7) ∧ invocations run.1 = 3 ∧ redis run.1 = job_done.
Proof. vm_compute. done. Qed.

(** A commit that fails with the conflict is retried like a conflict of
    the function. *)
Example conflict_at_commit_is_retried :
  let db := mkDatabase (λ _, None) (λ _, Some conflict) (λ _, None)
              (λ _, None) in
  let run := serialized db (conflict_then 0 (Returns 7)) new_world in
  run.2 = Returns None ∧ invocations run.1 = 100 ∧ redis run.1 = [].
Proof. vm_compute. done. Qed.

(** An exception outside [Exception] skips the rollback; the session is
    still removed. *)
Example base_exception_skips_rollback :
  sessions_scope reliable true
    (unit_of_work (V := nat) job_done (Raises (PyBaseException "SystemExit")))
    new_world
  = (mkWorld ∅ false [] [CallRemove], Raises (PyBaseException "SystemExit")).
Proof. reflexivity. Qed.

Lemma serialized_returns_after_conflicts_witness :
  let run :=
    serialized reliable (conflict_then 3 (Returns 7))
      new_world in
  run.2 = Returns (Some 7) ∧ invocations run.1 = 4.
Proof.
  intros run.
  apply (serialized_returns_after_conflicts reliable
           (conflict_then 3 (Returns 7))
           (λ _, eq_refl) (λ _, eq_refl) (λ _, eq_refl)
           3 7 new_world (λ _, eq_refl)).
  - lia.
  - intros i Hi. do 3 (destruct i as [|i]; [reflexivity|]). lia.
  - reflexivity.
Defined.

Lemma serialized_exhausted_returns_None_witness :
  let run := serialized reliable always_conflict new_world in
  run.2 = Returns None ∧ invocations run.1 = 100 ∧ redis run.1 = [].
Proof.
  intros run.
  apply (serialized_exhausted_returns_None reliable
           always_conflict
           (λ _, eq_refl) (λ _, eq_refl) (λ _, eq_refl)
           new_world (λ _, eq_refl)).
Defined.

(** C5 fails as stated for errors of an attempt that the function did not
    raise, and when the rollback fails. A non-conflict [OperationalError]
    of [session.connection] leaves the wrapper with no invocation and no
    rollback; and a domain error followed by a rollback that raises the
    conflict is retried, 100 times. *)
Lemma other_error_without_rollback_or_retried :
  (let run := serialized unreachable count_up new_world in
   run.2 = Raises connection_lost ∧
   invocations run.1 = 0 ∧
   count CallRollback (trace run.1) = 0) ∧
  (let run :=
     serialized rollback_conflicts (conflict_then 0 (Raises domain_error))
       new_world in
   run.2 = Returns None ∧ invocations run.1 = 100).
Proof. vm_compute. done. Qed.

Lemma serialized_other_error_not_retried_witness :
  let run :=
    serialized reliable
      (conflict_then 1 (Raises domain_error)) new_world in
  run.2 = Raises domain_error ∧
  trace run.1
    = trace after_one_conflict
      ++ [CallConnection; CallFunc; LogException domain_error;
          CallRollback; CallRemove] ∧
  redis run.1 = [].
Proof.
  intros run.
  apply (serialized_other_error_not_retried reliable
           (conflict_then 1 (Raises domain_error))
           1 new_world after_one_conflict domain_error
           (λ _, eq_refl) (λ _, eq_refl) (λ _, eq_refl)).
  - lia.
  - reflexivity.
  - reflexivity.
  - reflexivity.
  - discriminate.
Defined.

Lemma serialized_give_up_unreachable_witness :
  (serialized reliable always_conflict new_world).2
  = Returns None.
Proof.
  destruct (after_conflicts reliable always_conflict 100
              new_world) as [w'|] eqn:Hc.
  - by rewrite (proj2 (proj2 (serialized_give_up_unreachable reliable
                                always_conflict)) new_world w' Hc).
  - vm_compute in Hc. discriminate.
Defined.

End Runs.

(** ** More about the outbox: what the listeners keep and never do *)

Module OutboxInvariants.
Import Outbox Transactions OutboxFacts.

Lemma queue_message_other_keys c m (info : Info) k :
  k ≠ "outbox" → queue_message c m info !! k = info !! k.
Proof.
  intros Hk. unfold queue_message.
  destruct (info !! "outbox") as [l|] eqn:E.
  - rewrite bool_decide_eq_true_2 by eauto. cbv beta iota zeta.
    rewrite E. by rewrite lookup_insert_ne.
  - rewrite bool_decide_eq_false_2 by (intros [? ?]; congruence).
    cbv beta iota zeta. rewrite lookup_insert_eq.
    by rewrite !lookup_insert_ne.
Qed.

Lemma step_other_keys st h k :
  k ≠ "outbox" → (step st h).1 !! k = st.1 !! k.
Proof.
  intros Hk. destruct h as [| |c m|]; simpl.
  - unfold after_begin. by rewrite lookup_insert_ne.
  - unfold after_soft_rollback. by rewrite lookup_insert_ne.
  - by apply queue_message_other_keys.
  - reflexivity.
Qed.

(** X1. The listeners and [queue_message] write no key of [session.info] but
    ['outbox']: whatever else the application keeps there survives any
    history of begins, rollbacks, enqueues and commits. *)
Theorem info_other_keys_kept hs st k :
  k ≠ "outbox" → (run hs st).1 !! k = st.1 !! k.
Proof.
  intros Hk. revert st. induction hs as [|h hs IH]; intros st; [done|].
  rewrite run_cons, IH. by apply step_other_keys.
Qed.

Lemma info_other_keys_kept_witness :
  (run [Queue "alerts" "job:42:done"; Begin; Commit; SoftRollback]
     (<["user" := [("name", "ada")]]> ∅, [])).1 !! "user"
  = Some [("name", "ada")].
Proof.
  rewrite (info_other_keys_kept
             [Queue "alerts" "job:42:done"; Begin; Commit; SoftRollback]
             (<["user" := [("name", "ada")]]> ∅, []) "user");
    [reflexivity | discriminate].
Defined.

(** X2. [queue_message] never fails on a missing key: afterwards ['outbox'] is
    bound, to the pairs that were pending (none when the key was missing)
    followed by the new pair. *)
Theorem queue_message_binds_outbox c m (info : Info) :
  queue_message c m info !! "outbox" = Some (outbox info ++ [(c, m)]) ∧
  (info !! "outbox" = None →
   queue_message c m info !! "outbox" = Some [(c, m)]).
Proof.
  assert (H : queue_message c m info !! "outbox"
              = Some (outbox info ++ [(c, m)])).
  { unfold outbox, queue_message.
    destruct (info !! "outbox") as [l|] eqn:E.
    - rewrite bool_decide_eq_true_2 by eauto. cbv beta iota zeta.
      rewrite E. by rewrite lookup_insert_eq.
    - rewrite bool_decide_eq_false_2 by (intros [? ?]; congruence).
      cbv beta iota zeta. rewrite lookup_insert_eq.
      by rewrite lookup_insert_eq. }
  split; [exact H|]. intros Hnone. rewrite H. unfold outbox. by rewrite Hnone.
Qed.

Lemma queue_message_binds_outbox_witness :
  queue_message "alerts" "job:42:done" ∅ !! "outbox"
  = Some [("alerts", "job:42:done")].
Proof.
  apply (proj2 (queue_message_binds_outbox "alerts" "job:42:done" ∅)).
  reflexivity.
Defined.

(** X3. A history in which [after_commit] never fires publishes nothing. *)
Theorem no_commit_no_publish hs st :
  Forall (λ h, h ≠ Commit) hs → (run hs st).2 = st.2.
Proof.
  intros Hhs. revert st. induction Hhs as [|h hs Hh _ IH]; intros st; [done|].
  rewrite run_cons, IH, step_publishes.
  destruct h; try (by destruct Hh); apply app_nil_r.
Qed.

Lemma no_commit_no_publish_witness :
  (run [Begin; Queue "alerts" "job:42:done"; SoftRollback;
        Queue "alerts" "job:43:done"] (∅, [("audit", "started")])).2
  = [("audit", "started")].
Proof.
  apply (no_commit_no_publish
           [Begin; Queue "alerts" "job:42:done"; SoftRollback;
            Queue "alerts" "job:43:done"] (∅, [("audit", "started")])).
  repeat constructor; discriminate.
Defined.

Lemma outbox_run_from hs : ∀ st x,
  x ∈ outbox (run hs st).1 → x ∈ outbox st.1 ∨ x ∈ enqueued hs.
Proof.
  induction hs as [|h hs IH]; intros st x Hx; [by left|].
  rewrite run_cons in Hx. destruct (IH _ _ Hx) as [Hin|Hin].
  - destruct h as [| |c m|]; simpl in Hin.
    + rewrite outbox_after_begin in Hin. by apply elem_of_nil in Hin.
    + rewrite outbox_after_soft_rollback in Hin.
      by apply elem_of_nil in Hin.
    + rewrite outbox_queue_message in Hin.
      apply elem_of_app in Hin as [Hin|Hin]; [by left|].
      apply list_elem_of_singleton in Hin as ->. right. simpl. left.
    + by left.
  - right. destruct h; simpl; try done. by right.
Qed.

(** X4. The publish log grows only at its end and only by pairs that were
    enqueued: after any history, the log is the log before followed by
    pairs that were pending at the start or passed to [queue_message]
    during the history. Nothing is published that nobody enqueued. *)
Theorem publish_log_grows_by_enqueued hs : ∀ st,
  ∃ added,
    (run hs st).2 = st.2 ++ added ∧
    ∀ x, x ∈ added → x ∈ outbox st.1 ∨ x ∈ enqueued hs.
Proof.
  induction hs as [|h hs IH]; intros st.
  - exists []. split; [by rewrite app_nil_r|].
    intros x Hx. by apply elem_of_nil in Hx.
  - rewrite run_cons. destruct (IH (step st h)) as (added & Hrun & Hin).
    exists ((if h is Commit then outbox st.1 else []) ++ added). split.
    + rewrite Hrun, step_publishes. by rewrite <- app_assoc.
    + intros x Hx. apply elem_of_app in Hx as [Hx|Hx].
      * destruct h; try (by apply elem_of_nil in Hx). by left.
      * destruct (Hin x Hx) as [Hs|He].
        -- destruct (outbox_run_from [h] st x Hs) as [H|H]; [by left|].
           right. destruct h; simpl in H; try (by apply elem_of_nil in H).
           apply list_elem_of_singleton in H as ->. simpl. left.
        -- right. destruct h; simpl; try done. by right.
Qed.

Lemma publish_log_grows_by_enqueued_witness :
  ∃ added,
    (run [Begin; Queue "alerts" "job:42:done"; Commit; Commit]
       (∅, [("audit", "started")])).2
    = [("audit", "started")] ++ added ∧
    ∀ x, x ∈ added →
         x ∈ outbox (∅ : Info) ∨
         x ∈ enqueued [Begin; Queue "alerts" "job:42:done"; Commit; Commit].
Proof.
  apply (publish_log_grows_by_enqueued
           [Begin; Queue "alerts" "job:42:done"; Commit; Commit]
           (∅, [("audit", "started")])).
Defined.

Lemma run_queues (l : list pair_t) (i : Info) (r : list pair_t) :
  run ((λ cm, Queue cm.1 cm.2) <$> l) (i, r)
  = (foldl (λ i cm, queue_message cm.1 cm.2 i) i l, r).
Proof.
  revert i. induction l as [|[c m] l IH]; intros i; [done|].
  rewrite fmap_cons, run_cons. simpl. apply IH.
Qed.

Lemma transaction_publishes t st :
  (run (transaction t) st).2
  = st.2 ++ match t.2 with Commits => t.1 | RollsBack => [] end.
Proof.
  destruct t as [msgs e]. destruct st as [info redis].
  unfold transaction. simpl fst. simpl snd.
  rewrite run_app, run_queues.
  destruct e; unfold run; simpl.
  - rewrite after_commit_spec, outbox_queue_all, outbox_after_begin.
    reflexivity.
  - symmetry. apply app_nil_r.
Qed.

(** X5. Transactions run one after the other on one session, each beginning
    with [after_begin] and ending with a commit or a rollback: the publish
    log grows by the pairs of the transactions that commit, each pair once,
    in the order of the transactions and of the enqueues; the pairs of the
    transactions that roll back are never published. *)
Theorem transactions_publish_committed ts st :
  (run (concat (transaction <$> ts)) st).2 = st.2 ++ delivered ts.
Proof.
  revert st. induction ts as [|t ts IH]; intros st.
  - symmetry. apply app_nil_r.
  - rewrite fmap_cons, concat_cons, run_app, IH.
    rewrite transaction_publishes. unfold delivered.
    rewrite fmap_cons, concat_cons. by rewrite <- app_assoc.
Qed.

End OutboxInvariants.

(** ** More about [sessions_scope] and [scoped_session_decorator] *)

Module ScopeEdges.
Import Outbox Py Db Samples OutboxFacts ScopeFacts SerializedFacts.

(** Counts of calls in a trace that was extended by known calls. *)
Ltac count_calls :=
  unfold invocations; simpl trace; rewrite ?count_app;
  repeat match goal with
         | |- context [count ?ev (?x :: ?l)] =>
             let n := eval vm_compute in (count ev (x :: l)) in
             change (count ev (x :: l)) with n
         end;
  lia.

Section Edges.

Context {A : Type}.
Variable db : Database.

(** X7. A commit that raises is handled like an error of the body: the
    scope logs it, rolls back and removes the session, and when rollback
    and remove return the error of the commit leaves the scope; the value
    the body returned is lost. When that error is an [OperationalError]
    (raised by the database, before the [after_commit] listener fires)
    nothing is published. *)
Theorem sessions_scope_commit_failure (body : M A) w wb a e :
  body w = (wb, Returns a) →
  commit_fault db wb = Some e →
  isinstance_Exception e = true →
  trace (sessions_scope db true body w).1
    = trace wb ++ [CallCommit; LogException e; CallRollback; CallRemove] ∧
  (∀ orig, e = OperationalError orig →
           redis (sessions_scope db true body w).1 = redis wb) ∧
  (no_fault (rollback_fault db) → no_fault (remove_fault db) →
   (sessions_scope db true body w).2 = Raises e).
Proof.
  intros Hb Hc He. split; [|split].
  - rewrite (scope_trace_returns _ _ _ _ _ _ Hb). unfold on_return, on_error.
    by rewrite Hc, He.
  - intros orig _. unfold_scope. rewrite Hb. simpl. rewrite Hc. simpl.
    rewrite He. simpl. by split_faults.
  - intros Hrb Hrm. unfold_scope. rewrite Hb. simpl. rewrite Hc. simpl.
    rewrite He. simpl. rewrite Hrb. simpl. by rewrite Hrm.
Qed.

(** X8. An exception of the body outside [Exception] (KeyboardInterrupt,
    SystemExit) is not caught by the handler: it is not logged, no rollback
    is called and nothing is committed or published; the session is
    removed, and the exception leaves the scope when the remove returns. *)
Theorem sessions_scope_base_exception commit (body : M A) w wb e :
  body w = (wb, Raises e) →
  isinstance_Exception e = false →
  trace (sessions_scope db commit body w).1 = trace wb ++ [CallRemove] ∧
  redis (sessions_scope db commit body w).1 = redis wb ∧
  (no_fault (remove_fault db) →
   (sessions_scope db commit body w).2 = Raises e).
Proof.
  intros Hb He. split; [|split].
  - rewrite (scope_trace_raises _ _ _ _ _ _ Hb). unfold on_error.
    by rewrite He.
  - unfold_scope. rewrite Hb, He. simpl. by split_faults.
  - intros Hrm. unfold_scope. rewrite Hb, He. simpl. by rewrite Hrm.
Qed.



End Edges.

Section Decorator.

Context {V : Type}.
Variable db : Database.
Variable func : nat → list pair_t * outcome V.

Lemma call_func_trace w : trace (call_func func w).1 = trace w ++ [CallFunc].
Proof.
  unfold call_func. destruct (func (invocations w)) as [msgs out].
  reflexivity.
Qed.

Lemma call_func_redis w : redis (call_func func w).1 = redis w.
Proof.
  unfold call_func. destruct (func (invocations w)) as [msgs out].
  reflexivity.
Qed.

Lemma call_func_outcome w : (call_func func w).2 = (func (invocations w)).2.
Proof.
  unfold call_func. destruct (func (invocations w)) as [msgs out].
  reflexivity.
Qed.

(** The calls a scope makes after its body hold no call of the function. *)
Lemma scope_calls_no_func commit failure e :
  count CallFunc (on_return commit failure) = 0 ∧
  count CallFunc (on_error e) = 0.
Proof.
  unfold on_return, on_error. split.
  - destruct commit; [|done]. destruct failure as [e'|]; [|done].
    by destruct (isinstance_Exception e').
  - by destruct (isinstance_Exception e).
Qed.

Lemma scope_no_commit_redis {B} (body : M B) w :
  redis (sessions_scope db false body w).1 = redis (body w).1.
Proof.
  unfold_scope. destruct (body w) as [wb [a|e]]; simpl.
  - by split_faults.
  - destruct (isinstance_Exception e); simpl; by split_faults.
Qed.

(** X10. A function run through [scoped_session_decorator] is invoked exactly
    once; the wrapper never commits and never publishes, and removes the
    session once. When the function returns and the remove returns, the
    wrapper returns the value of the function and the session is gone with
    its outbox: the pairs the function enqueued are never published. *)
Theorem scoped_session_decorator_never_publishes w :
  let run := scoped_session_decorator db func w in
  invocations run.1 = S (invocations w) ∧
  count CallCommit (trace run.1) = count CallCommit (trace w) ∧
  count CallRemove (trace run.1) = S (count CallRemove (trace w)) ∧
  redis run.1 = redis w ∧
  (no_fault (remove_fault db) →
   ∀ v, (func (invocations w)).2 = Returns v →
        run.2 = Returns v ∧ info run.1 = ∅).
Proof.
  intros run. subst run. unfold scoped_session_decorator.
  pose proof (call_func_trace w) as Ht.
  pose proof (call_func_outcome w) as Ho.
  destruct (call_func func w) as [wb [a|e]] eqn:Hb; simpl in Ht, Ho.
  - pose proof (scope_trace_returns db false _ _ _ _ Hb) as Hs.
    unfold on_return in Hs.
    repeat split.
    + unfold invocations. rewrite Hs, Ht. count_calls.
    + rewrite Hs, Ht. count_calls.
    + rewrite Hs, Ht. count_calls.
    + rewrite scope_no_commit_redis, Hb. simpl.
      rewrite <- (call_func_redis w). by rewrite Hb.
    + rewrite <- Ho in H0. injection H0 as <-.
      unfold_scope. rewrite Hb. simpl. by rewrite H.
    + unfold_scope. rewrite Hb. simpl. by rewrite H.
  - pose proof (scope_trace_raises db false _ _ _ _ Hb) as Hs.
    unfold on_error in Hs.
    repeat split.
    + unfold invocations. rewrite Hs, Ht.
      destruct (isinstance_Exception e); count_calls.
    + rewrite Hs, Ht. destruct (isinstance_Exception e); count_calls.
    + rewrite Hs, Ht. destruct (isinstance_Exception e); count_calls.
    + rewrite scope_no_commit_redis, Hb. simpl.
      rewrite <- (call_func_redis w). by rewrite Hb.
    + rewrite <- Ho in H0. discriminate.
    + rewrite <- Ho in H0. discriminate.
Qed.

End Decorator.
End ScopeEdges.

(** ** More about [serialized]: bounds, provenance, retries *)

Module SerializedEdges.
Import Outbox Py Db Samples OutboxFacts ScopeFacts SerializedFacts ScopeEdges.

Section Wrapper.

Context {V : Type}.
Variable db : Database.
Variable func : nat → list pair_t * outcome V.

Ltac unfold_attempt :=
  unfold attempt, session_connection, call_func; unfold_scope.

Lemma attempt_connected w :
  connection_fault db w = None →
  attempt db func w = sessions_scope db true (call_func func) (connected w).
Proof.
  intros Hc. unfold attempt, session_connection, connected.
  unfold mbind, M_bind. rewrite Hc.
  change (begun (record CallConnection w)) with (begun w).
  by destruct (begun w).
Qed.

Lemma connected_trace w : trace (connected w) = trace w ++ [CallConnection].
Proof. unfold connected. by destruct (begun w). Qed.

Lemma connected_redis w : redis (connected w) = redis w.
Proof. unfold connected. by destruct (begun w). Qed.

Lemma connected_invocations w : invocations (connected w) = invocations w.
Proof. unfold invocations. rewrite connected_trace. count_calls. Qed.

Lemma connected_outbox w :
  outbox (info (connected w)) = if begun w then outbox (info w) else [].
Proof.
  unfold connected. destruct (begun w); [done|]. simpl.
  apply outbox_after_begin.
Qed.

(** One attempt invokes the function at most once. *)
Lemma attempt_invocations w :
  (invocations (attempt db func w).1 ≤ S (invocations w))%nat.
Proof.
  destruct (connection_fault db w) as [e|] eqn:Hc.
  - unfold attempt, session_connection, mbind, M_bind. rewrite Hc. simpl.
    count_calls.
  - rewrite attempt_connected by done.
    pose proof (call_func_trace func (connected w)) as Ht.
    destruct (call_func func (connected w)) as [wb [a|e]] eqn:Hb;
      simpl in Ht; unfold invocations.
    + rewrite (scope_trace_returns db true _ _ _ _ Hb), Ht, connected_trace.
      rewrite !count_app.
      rewrite (proj1 (scope_calls_no_func true (commit_fault db wb) conflict)).
      count_calls.
    + rewrite (scope_trace_raises db true _ _ _ _ Hb), Ht, connected_trace.
      rewrite !count_app.
      rewrite (proj2 (scope_calls_no_func true None e)).
      count_calls.
Qed.

Lemma on_OperationalError_retry_inv attempts exc attempts' :
  on_OperationalError attempts exc = Retry attempts' →
  exc = conflict ∧ attempts' = (attempts - 1)%Z ∧ (attempts >? 0)%Z = true.
Proof.
  unfold on_OperationalError.
  destruct exc as [[|name]| |]; simpl; try discriminate.
  destruct (attempts >? 0)%Z; [|discriminate].
  by injection 1 as <-.
Qed.

(** X11. The retry budget bounds the work: whatever the database and the
    function do, the loop entered with counter [attempts] invokes the
    function at most [attempts] times, and [serialized] at most 100
    times. *)
Theorem serialized_invocations_bounded attempts w :
  (invocations (serialized_loop db func attempts w).1
     ≤ invocations w + Z.to_nat attempts)%nat ∧
  (invocations (serialized db func w).1 ≤ invocations w + 100)%nat.
Proof.
  assert (H : ∀ attempts w,
            (invocations (serialized_loop db func attempts w).1
             ≤ invocations w + Z.to_nat attempts)%nat).
  { clear attempts w. intros attempts w.
    funelim (serialized_loop db func attempts w); simpl.
    - lia.
    - pose proof (attempt_invocations w) as Ha. rewrite Heq in Ha.
      simpl in Ha. lia.
    - pose proof (attempt_invocations w) as Ha. rewrite Heq in Ha.
      simpl in Ha.
      destruct (on_OperationalError_retry_inv _ _ _ Hretry) as (_ & -> & _).
      lia.
    - pose proof (attempt_invocations w) as Ha. rewrite Heq in Ha.
      simpl in Ha. lia. }
  split; [apply H|]. unfold serialized. etrans; [apply H|]. lia.
Qed.

Lemma loop_none_inv attempts w w' :
  serialized_loop db func attempts w = (w', Returns None) →
  after_conflicts db func (Z.to_nat attempts) w = Some w'.
Proof.
  funelim (serialized_loop db func attempts w); intros Hl;
    try discriminate.
  - injection Hl as <-. replace (Z.to_nat attempts) with 0 by lia. done.
  - destruct (on_OperationalError_retry_inv _ _ _ Hretry) as (-> & -> & _).
    replace (Z.to_nat attempts) with (S (Z.to_nat (attempts - 1))) by lia.
    simpl. rewrite Heq. auto.
Qed.

(** X12. [serialized] returns [None] only when the budget is used up: each of
    the 100 attempts ended with the conflict. *)
Theorem serialized_None_only_when_exhausted w w' :
  serialized db func w = (w', Returns None) →
  after_conflicts db func 100 w = Some w'.
Proof. intros H. by apply loop_none_inv in H. Qed.

(** What one attempt does once the connection is there, case by case. *)
Lemma attempt_cases w :
  connection_fault db w = None →
  let wc := connected w in
  let msgs := (func (invocations w)).1 in
  let wb := set_session
              (foldl (λ i cm, queue_message cm.1 cm.2 i) (info wc) msgs)
              (begun wc) (record CallFunc wc) in
  attempt db func w
  = sessions_scope db true (unit_of_work msgs (func (invocations w)).2)
      (record CallFunc wc) ∧
  invocations wb = S (invocations w) ∧
  trace wb = trace w ++ [CallConnection; CallFunc] ∧
  redis wb = redis w ∧
  outbox (info wb) = (if begun w then outbox (info w) else []) ++ msgs.
Proof.
  intros Hc wc msgs wb. subst wc msgs wb.
  split; [|split; [|split; [|split]]].
  - rewrite attempt_connected by done.
    unfold_scope. unfold call_func. rewrite connected_invocations.
    by destruct (func (invocations w)).
  - unfold invocations. simpl trace. rewrite connected_trace.
    count_calls.
  - simpl trace. rewrite connected_trace. by rewrite <- app_assoc.
  - simpl. apply connected_redis.
  - simpl. rewrite outbox_queue_all. by rewrite connected_outbox.
Qed.

Lemma attempt_returns_inv w w' v :
  attempt db func w = (w', Returns v) →
  (func (invocations w)).2 = Returns v ∧
  trace w' = trace w ++ [CallConnection; CallFunc; CallCommit; CallRemove] ∧
  redis w'
  = redis w ++ (if begun w then outbox (info w) else [])
            ++ (func (invocations w)).1.
Proof.
  destruct (connection_fault db w) as [e|] eqn:Hc.
  { unfold attempt, session_connection, mbind, M_bind. rewrite Hc.
    discriminate. }
  destruct (attempt_cases w Hc) as (Ha & _ & Ht & Hr & Ho).
  rewrite Ha. clear Ha. unfold_scope. rewrite unit_of_work_spec.
  change (begun (record CallFunc (connected w))) with (begun (connected w))
    in *.
  change (info (record CallFunc (connected w))) with (info (connected w))
    in *.
  set (wb := set_session _ _ _) in *.
  destruct (func (invocations w)) as [msgs [v'|e]]; simpl.
  - destruct (commit_fault db wb) as [e|]; simpl.
    + destruct (isinstance_Exception e); simpl; split_faults; discriminate.
    + destruct (remove_fault db _); simpl; [discriminate|].
      injection 1 as <- <-. simpl. rewrite after_commit_spec.
      rewrite connected_trace, connected_redis, outbox_queue_all,
        connected_outbox.
      by rewrite <- !app_assoc.
  - destruct (isinstance_Exception e); simpl; split_faults; discriminate.
Qed.

(** X13. [serialized] returns a value only out of an attempt in which the
    function returned that value and the commit and the remove went
    through: the last calls are the connection, the function, the commit
    and the remove, and the pairs pending at that commit were published. *)
Theorem serialized_returns_committed_value attempts w w' v :
  serialized_loop db func attempts w = (w', Returns (Some v)) →
  ∃ w0,
    (func (invocations w0)).2 = Returns v ∧
    trace w'
    = trace w0 ++ [CallConnection; CallFunc; CallCommit; CallRemove] ∧
    redis w'
    = redis w0 ++ (if begun w0 then outbox (info w0) else [])
               ++ (func (invocations w0)).1.
Proof.
  funelim (serialized_loop db func attempts w); intros Hl;
    try discriminate.
  - injection Hl as -> ->. exists w. by apply attempt_returns_inv.
  - auto.
Qed.

(** X14. A non-conflict error of [session.connection] leaves the wrapper at
    once: the function is not invoked, and no rollback and no remove are
    called ([sessions_scope] was not entered). *)
Theorem serialized_connection_error w e :
  connection_fault db w = Some e →
  e ≠ conflict →
  serialized db func w = (record CallConnection w, Raises e).
Proof.
  intros Hc He.
  apply (serialized_propagates_other_error db func 0 w w); [lia|done| |done].
  unfold attempt, session_connection, mbind, M_bind. by rewrite Hc.
Qed.

(** Conflicts in a row, followed along an invariant of the worlds between
    the attempts. *)
Lemma after_conflicts_invariant (I : nat → World → Prop) k : ∀ w,
  I 0 w →
  (∀ i x, i < k → I i x →
          ∃ x', attempt db func x = (x', Raises conflict) ∧ I (S i) x') →
  ∃ w', after_conflicts db func k w = Some w' ∧ I k w'.
Proof.
  revert I. induction k as [|k IH]; intros I w H0 Hstep.
  - by exists w.
  - destruct (Hstep 0 w ltac:(lia) H0) as (w1 & Ha & H1).
    destruct (IH (λ i, I (S i)) w1 H1) as (w' & Hc & Hk).
    { intros i x Hi Hx. apply Hstep; [lia|done]. }
    exists w'. split; [|done]. simpl. by rewrite Ha.
Qed.





(** One attempt in which the function returns and the database raises [e]
    at the commit. *)
Lemma attempt_commit_fails w v e :
  connection_fault db w = None →
  (func (invocations w)).2 = Returns v →
  (∀ x, commit_fault db x = Some e) →
  isinstance_Exception e = true →
  no_fault (rollback_fault db) →
  no_fault (remove_fault db) →
  attempt db func w
  = (mkWorld ∅ false (redis w)
       (trace w ++ [CallConnection; CallFunc; CallCommit; LogException e;
                    CallRollback; CallRemove]),
     Raises e).
Proof.
  intros Hc Hf Hcommit He Hrb Hrm.
  destruct (attempt_cases w Hc) as (Ha & _ & Ht & Hr & _).
  rewrite Ha. clear Ha. unfold_scope. rewrite unit_of_work_spec.
  change (begun (record CallFunc (connected w))) with (begun (connected w))
    in *.
  change (info (record CallFunc (connected w))) with (info (connected w))
    in *.
  set (wb := set_session _ _ _) in *.
  destruct (func (invocations w)) as [msgs out]. simpl in Hf. subst out.
  simpl. rewrite Hcommit. simpl. rewrite He. simpl. rewrite Hrb. simpl.
  rewrite Hrm. simpl. subst wb. unfold set_session, record. simpl.
  rewrite connected_redis, connected_trace. by rewrite <- !app_assoc.
Qed.

(** One attempt in which the function raises [e] and the rollback raises
    [er]. *)
Lemma attempt_rollback_fails w e er :
  connection_fault db w = None →
  (func (invocations w)).2 = Raises e →
  isinstance_Exception e = true →
  (∀ x, rollback_fault db x = Some er) →
  no_fault (remove_fault db) →
  attempt db func w
  = (mkWorld ∅ false (redis w)
       (trace w ++ [CallConnection; CallFunc; LogException e;
                    CallRollback; CallRemove]),
     Raises er).
Proof.
  intros Hc Hf He Hrb Hrm.
  destruct (attempt_cases w Hc) as (Ha & _ & Ht & Hr & _).
  rewrite Ha. clear Ha. unfold_scope. rewrite unit_of_work_spec.
  change (begun (record CallFunc (connected w))) with (begun (connected w))
    in *.
  change (info (record CallFunc (connected w))) with (info (connected w))
    in *.
  set (wb := set_session _ _ _) in *.
  destruct (func (invocations w)) as [msgs out]. simpl in Hf. subst out.
  simpl. rewrite He. simpl. rewrite Hrb. simpl.
  rewrite Hrm. simpl. subst wb. unfold set_session, record. simpl.
  rewrite connected_redis, connected_trace. by rewrite <- !app_assoc.
Qed.

(** X16. An error of the commit that is not the conflict is not retried:
    when the function returns and the commit raises [e], the function has
    been invoked once, the scope rolls back and removes the session and [e]
    leaves the wrapper. When [e] is an [OperationalError] (raised by the
    database, before the [after_commit] listener fires) nothing is
    published. *)
Theorem serialized_commit_error_not_retried w v e :
  no_fault (connection_fault db) →
  no_fault (rollback_fault db) →
  no_fault (remove_fault db) →
  (func (invocations w)).2 = Returns v →
  (∀ x, commit_fault db x = Some e) →
  isinstance_Exception e = true →
  e ≠ conflict →
  (serialized db func w).2 = Raises e ∧
  trace (serialized db func w).1
  = trace w ++ [CallConnection; CallFunc; CallCommit; LogException e;
                CallRollback; CallRemove] ∧
  (∀ orig, e = OperationalError orig →
           redis (serialized db func w).1 = redis w).
Proof.
  intros Hcn Hrb Hrm Hf Hcommit He Hne.
  rewrite (serialized_propagates_other_error db func 0 w w _ e
             ltac:(lia) eq_refl
             (attempt_commit_fails w v e (Hcn w) Hf Hcommit He Hrb Hrm)
             Hne).
  done.
Qed.

(** The invariant carried along conflicting attempts: the invocations so
    far and the publish log. *)
Lemma conflicts_counted k w :
  (∀ x, ∃ x', attempt db func x = (x', Raises conflict) ∧
              invocations x' = S (invocations x) ∧ redis x' = redis x) →
  ∃ w', after_conflicts db func k w = Some w' ∧
        invocations w' = invocations w + k ∧ redis w' = redis w.
Proof.
  intros Hstep.
  apply (after_conflicts_invariant
           (λ i x, invocations x = invocations w + i ∧ redis x = redis w)).
  - split; [lia|done].
  - intros i x _ [Hi Hr]. destruct (Hstep x) as (x' & Ha & Hi' & Hr').
    exists x'. split; [done|]. split; [lia|congruence].
Qed.

(** X17. A conflict raised by the commit is retried like one raised by the
    function, and counts against the budget: when the function always
    returns and the commit always raises the conflict, the function is
    invoked exactly 100 times, nothing is published, and the wrapper
    returns [None] without raising. *)
Theorem serialized_commit_conflicts_exhaust w :
  no_fault (connection_fault db) →
  no_fault (rollback_fault db) →
  no_fault (remove_fault db) →
  (∀ x, commit_fault db x = Some conflict) →
  (∀ n, ∃ v, (func n).2 = Returns v) →
  (serialized db func w).2 = Returns None ∧
  invocations (serialized db func w).1 = invocations w + 100 ∧
  redis (serialized db func w).1 = redis w.
Proof.
  intros Hcn Hrb Hrm Hcommit Hf.
  destruct (conflicts_counted 100 w) as (w' & Hc & Hi & Hr).
  { intros x. destruct (Hf (invocations x)) as [v Hv].
    eexists. split.
    - by apply (attempt_commit_fails x v conflict).
    - split; [|done]. unfold invocations. simpl trace. count_calls. }
  by rewrite (serialized_after_100_conflicts db func w w' Hc).
Qed.

(** X18. An error of the function can be lost: when the rollback that follows
    it raises the conflict, that conflict is what the wrapper sees, and it
    retries. With a function that always raises and a rollback that always
    raises the conflict, the function is invoked 100 times and the wrapper
    returns [None]; none of the errors of the function reaches the
    caller. *)
Theorem serialized_rollback_conflict_hides_error w :
  no_fault (connection_fault db) →
  no_fault (remove_fault db) →
  (∀ x, rollback_fault db x = Some conflict) →
  (∀ n, ∃ e, (func n).2 = Raises e ∧ isinstance_Exception e = true) →
  (serialized db func w).2 = Returns None ∧
  invocations (serialized db func w).1 = invocations w + 100.
Proof.
  intros Hcn Hrm Hrb Hf.
  destruct (conflicts_counted 100 w) as (w' & Hc & Hi & Hr).
  { intros x. destruct (Hf (invocations x)) as (e & He & Hex).
    eexists. split.
    - by apply (attempt_rollback_fails x e conflict).
    - split; [|done]. unfold invocations. simpl trace. count_calls. }
  by rewrite (serialized_after_100_conflicts db func w w' Hc).
Qed.

End Wrapper.
End SerializedEdges.

(** ** Facts about [init_db] *)

Module InitDbFacts.
Import Py InitDb.

Lemma starts_with_spec p : ∀ s,
  starts_with p s = true ↔ ∃ post, s = p +:+ post.
Proof.
  induction p as [|a p IH]; intros s; simpl.
  - split; [intros _; by exists s | done].
  - destruct s as [|b s].
    + split; [discriminate | intros [post Hp]; discriminate].
    + destruct (Ascii.eqb_spec a b) as [->|Hab].
      * rewrite IH. split; intros [post Hp]; exists post.
        -- by rewrite Hp.
        -- by injection Hp.
      * split; [discriminate | intros [post Hp]; injection Hp; congruence].
Qed.

(** [contains] is the substring test. *)
Lemma contains_spec needle : ∀ hay,
  contains needle hay = true ↔ ∃ pre post, hay = pre +:+ needle +:+ post.
Proof.
  intros hay. split.
  - induction hay as [|a hay IH]; simpl; intros H;
      apply orb_true_iff in H as [H|H].
    + apply starts_with_spec in H as [post ->]. by exists "", post.
    + discriminate.
    + apply starts_with_spec in H as [post ->]. by exists "", post.
    + destruct (IH H) as (pre & post & ->). by exists (String a pre), post.
  - intros (pre & post & ->). induction pre as [|a pre IH].
    + simpl String.append.
      assert (Hs : starts_with needle (needle +:+ post) = true)
        by (apply starts_with_spec; eauto).
      destruct (needle +:+ post); simpl; simpl in Hs; by rewrite Hs.
    + simpl. rewrite IH. apply orb_true_r.
Qed.

Section Engine.

Variable engine : Engine.

Lemma create_tables_stderr drop_all c :
  stderr (create_tables engine drop_all c).1 = stderr c.
Proof.
  unfold create_tables, metadata_drop_all, metadata_create_all.
  destruct drop_all; simpl.
  - destruct (drop_all_fault engine c); simpl; [done|].
    by destruct (create_all_fault engine _).
  - by destruct (create_all_fault engine c).
Qed.

Lemma stderr_grows (l : list string) (x : string) : l ≠ l ++ [x].
Proof.
  intros H. apply (f_equal length) in H. rewrite length_app in H.
  simpl in H. lia.
Qed.

(** X19. [init_db] never swallows or replaces an error: its outcome is the
    outcome of the schema calls, and it makes no schema call of its own in
    the handler. It writes [db_user_warning] to stderr, once, exactly when
    those calls raised an [OperationalError] whose message contains the
    text [password authentication failed for user "dallinger"]; otherwise
    stderr is untouched. *)
Theorem init_db_reraises_and_warns drop_all c :
  (init_db engine drop_all c).2 = (create_tables engine drop_all c).2 ∧
  schema_calls (init_db engine drop_all c).1
  = schema_calls (create_tables engine drop_all c).1 ∧
  (stderr (init_db engine drop_all c).1 = stderr c ++ [db_user_warning] ∨
   stderr (init_db engine drop_all c).1 = stderr c) ∧
  (stderr (init_db engine drop_all c).1 = stderr c ++ [db_user_warning] ↔
   ∃ orig pre post,
     (create_tables engine drop_all c).2 = Raises (OperationalError orig) ∧
     message engine (OperationalError orig) = pre +:+ msg +:+ post).
Proof.
  pose proof (create_tables_stderr drop_all c) as Hs.
  unfold init_db.
  destruct (create_tables engine drop_all c) as [c1 [[]|[orig|m|n]]];
    simpl in *.
  - repeat split; [by right| |].
    + rewrite Hs. intros H. by apply stderr_grows in H.
    + intros (? & ? & ? & ? & _). discriminate.
  - destruct (contains msg (message engine (OperationalError orig)))
      eqn:Hm; simpl.
    + repeat split; [left; by rewrite Hs| |by rewrite Hs].
      intros _. apply contains_spec in Hm as (pre & post & Hm). eauto.
    + repeat split; [by right| |].
      * rewrite Hs. intros H. by apply stderr_grows in H.
      * intros (o & pre & post & Ho & Hmsg). injection Ho as <-.
        assert (contains msg (message engine (OperationalError orig))
                = true) by (apply contains_spec; eauto).
        congruence.
  - repeat split; [by right| |].
    + rewrite Hs. intros H. by apply stderr_grows in H.
    + intros (? & ? & ? & ? & _). discriminate.
  - repeat split; [by right| |].
    + rewrite Hs. intros H. by apply stderr_grows in H.
    + intros (? & ? & ? & ? & _). discriminate.
Qed.

(** X20. The schema calls of [init_db]: tables are dropped only when
    [drop_all] is set, and before they are created; when the drop raises,
    [create_all] is not called and the error of the drop is what leaves
    [init_db]; [init_db] returns exactly when no schema call raised. *)
Theorem init_db_schema_calls c :
  let c' := mkConsole (schema_calls c ++ [DropAll]) (stderr c) in
  (schema_calls (init_db engine false c).1 = schema_calls c ++ [CreateAll] ∧
   ((init_db engine false c).2 = Returns tt ↔
    create_all_fault engine c = None)) ∧
  (∀ e, drop_all_fault engine c = Some e →
        schema_calls (init_db engine true c).1 = schema_calls c ++ [DropAll] ∧
        (init_db engine true c).2 = Raises e) ∧
  (drop_all_fault engine c = None →
   schema_calls (init_db engine true c).1
   = schema_calls c ++ [DropAll; CreateAll] ∧
   ((init_db engine true c).2 = Returns tt ↔
    create_all_fault engine c' = None)).
Proof.
  intros c'. subst c'.
  unfold init_db, create_tables, metadata_drop_all, metadata_create_all.
  split; [|split].
  - simpl.
    destruct (create_all_fault engine c) as [[orig|m|n]|]; simpl;
      try destruct (contains _ _); simpl; (split; [done|]);
      split; congruence.
  - intros e He. rewrite He. simpl.
    destruct e as [orig|m|n]; simpl; try destruct (contains _ _); done.
  - intros Hd. rewrite Hd. simpl.
    destruct (create_all_fault engine _) as [[orig|m|n]|]; simpl;
      try destruct (contains _ _); simpl;
      (split; [by rewrite <- app_assoc|]); split; congruence.
Qed.

End Engine.
End InitDbFacts.

(** ** More concrete runs *)

Module MoreRuns.
Import Outbox Py Db InitDb Samples ScopeEdges SerializedEdges InitDbFacts.

Lemma sessions_scope_commit_failure_witness :
  let body := unit_of_work (V := nat) job_done (Returns 0) in
  let run := sessions_scope (commit_conflicts 0) true body new_world in
  trace run.1
    = [CallCommit; LogException conflict; CallRollback; CallRemove] ∧
  redis run.1 = [] ∧
  run.2 = Raises conflict.
Proof.
  intros body run.
  destruct (sessions_scope_commit_failure (commit_conflicts 0) body
              new_world (body new_world).1 0 conflict
              eq_refl eq_refl eq_refl) as (Ht & Hr & He).
  split; [exact Ht | split; [exact (Hr _ eq_refl) |]].
  apply He; intros ?; reflexivity.
Defined.

Lemma sessions_scope_base_exception_witness :
  let body :=
    unit_of_work (V := nat) job_done (Raises (PyBaseException "SystemExit")) in
  let run := sessions_scope reliable true body new_world in
  trace run.1 = [CallRemove] ∧
  redis run.1 = [] ∧
  run.2 = Raises (PyBaseException "SystemExit").
Proof.
  intros body run.
  destruct (sessions_scope_base_exception reliable true body
              new_world (body new_world).1 (PyBaseException "SystemExit")
              eq_refl eq_refl) as (Ht & Hr & He).
  split; [exact Ht | split; [exact Hr |]].
  apply He; intros ?; reflexivity.
Defined.



Lemma scoped_session_decorator_never_publishes_witness :
  let run := scoped_session_decorator reliable count_up new_world in
  run.2 = Returns 0 ∧ info run.1 = ∅ ∧ redis run.1 = [].
Proof.
  intros run.
  destruct (scoped_session_decorator_never_publishes reliable count_up
              new_world) as (_ & _ & _ & Hr & Hv).
  destruct (Hv (λ _, eq_refl) 0 eq_refl) as (Ho & Hi).
  split; [exact Ho | split; [exact Hi | exact Hr]].
Defined.

Lemma serialized_None_only_when_exhausted_witness :
  after_conflicts reliable always_conflict 100 new_world
  = Some (serialized reliable always_conflict new_world).1.
Proof.
  apply (serialized_None_only_when_exhausted reliable always_conflict
           new_world (serialized reliable always_conflict new_world).1).
  vm_compute. reflexivity.
Defined.

Lemma serialized_returns_committed_value_witness :
  ∃ w0,
    (conflict_then 2 (Returns 7) (invocations w0)).2 = Returns 7 ∧
    trace (serialized reliable (conflict_then 2 (Returns 7)) new_world).1
    = trace w0 ++ [CallConnection; CallFunc; CallCommit; CallRemove] ∧
    redis (serialized reliable (conflict_then 2 (Returns 7)) new_world).1
    = redis w0 ++ (if begun w0 then outbox (info w0) else [])
               ++ (conflict_then 2 (Returns 7) (invocations w0)).1.
Proof.
  apply (serialized_returns_committed_value reliable
           (conflict_then 2 (Returns 7)) 100 new_world
           (serialized reliable (conflict_then 2 (Returns 7)) new_world).1
           7).
  vm_compute. reflexivity.
Defined.

Lemma serialized_connection_error_witness :
  serialized unreachable count_up new_world
  = (record CallConnection new_world, Raises connection_lost).
Proof.
  apply (serialized_connection_error unreachable count_up new_world
           connection_lost eq_refl).
  discriminate.
Defined.


Lemma serialized_commit_error_not_retried_witness :
  let db := mkDatabase (λ _, None) (λ _, Some connection_lost) (λ _, None)
              (λ _, None) in
  (serialized db count_up new_world).2 = Raises connection_lost ∧
  trace (serialized db count_up new_world).1
  = [CallConnection; CallFunc; CallCommit; LogException connection_lost;
     CallRollback; CallRemove] ∧
  redis (serialized db count_up new_world).1 = [].
Proof.
  intros db.
  destruct (serialized_commit_error_not_retried db count_up new_world 0
              connection_lost
              (λ _, eq_refl) (λ _, eq_refl) (λ _, eq_refl) eq_refl
              (λ _, eq_refl) eq_refl ltac:(discriminate))
    as (He & Ht & Hr).
  split; [exact He | split; [exact Ht | exact (Hr _ eq_refl)]].
Defined.

Lemma serialized_commit_conflicts_exhaust_witness :
  let run := serialized commit_always_conflicts count_up new_world in
  run.2 = Returns None ∧ invocations run.1 = 100 ∧ redis run.1 = [].
Proof.
  intros run.
  apply (serialized_commit_conflicts_exhaust commit_always_conflicts
           count_up new_world
           (λ _, eq_refl) (λ _, eq_refl) (λ _, eq_refl) (λ _, eq_refl)).
  intros n. by exists n.
Defined.

Lemma serialized_rollback_conflict_hides_error_witness :
  let run :=
    serialized rollback_conflicts (conflict_then 0 (Raises domain_error))
      new_world in
  run.2 = Returns None ∧ invocations run.1 = 100.
Proof.
  intros run.
  apply (serialized_rollback_conflict_hides_error rollback_conflicts
           (conflict_then 0 (Raises domain_error)) new_world
           (λ _, eq_refl) (λ _, eq_refl) (λ _, eq_refl)).
  intros n. exists domain_error. split; reflexivity.
Defined.

Lemma init_db_reraises_and_warns_witness :
  stderr (init_db engine_without_user true (mkConsole [] [])).1
  = [db_user_warning].
Proof.
  apply (proj2 (proj2 (proj2 (proj2
           (init_db_reraises_and_warns engine_without_user true
              (mkConsole [] [])))))).
  exists (DriverError "FATAL"), "(psycopg2.OperationalError) FATAL:  ", "".
  split; reflexivity.
Defined.

Lemma init_db_schema_calls_witness :
  schema_calls (init_db engine_without_drop true (mkConsole [] [])).1
  = [DropAll] ∧
  (init_db engine_without_drop true (mkConsole [] [])).2
  = Raises connection_lost.
Proof.
  apply (proj1 (proj2 (init_db_schema_calls engine_without_drop
                         (mkConsole [] []))) connection_lost).
  reflexivity.
Defined.

(** [init_db(drop_all=True)] as the tests call it, on an engine that
    works. *)
Example init_db_drop_all :
  init_db (mkEngine (λ _, None) (λ _, None) (λ _, "")) true (mkConsole [] [])
  = (mkConsole [DropAll; CreateAll] [], Returns tt).
Proof. reflexivity. Qed.

End MoreRuns.
